(** * The comtensor validator: polling, scoring and weight normalisation

    A shallow embedding of [src/comtensor/validator/validator.py].

    Conventions of the embedding:
    - a Python [dict] is an association list in insertion order with
      pairwise distinct keys (iteration order matters to [sorted], which is
      stable);
    - a Python [float] is an exact rational of [Q]; rounding, infinities and
      NaN are outside the model, save for the division of the Dice distance
      ([scipy_dice]), whose result says when it is not a number; [==] on
      floats is [Qeq];
    - a Python [int] is a [Z];
    - a raised exception is the [Raise] branch of [result];
    - calls to the outside world (ledger, peers, log) are recorded in a
      trace of [event]s that is threaded through the code. *)

From Stdlib Require Import ZArith QArith Qround Qfield Qminmax.
From Stdlib Require Import List String Ascii Bool Lia Permutation Sorted.
Import ListNotations.

Set Implicit Arguments.
Set Warnings "-register-all".

(** ** Exceptions and results *)

Inductive exn : Type :=
| ZeroDivisionError
| ValueError
| IndexError
| KeyError
| TypeError
| RuntimeError
| TimeoutError
| ConnectionError
| KeyboardInterrupt.

(** [except Exception] catches every class above but [KeyboardInterrupt],
    which derives from [BaseException] only. *)
Definition is_Exception (e : exn) : bool :=
  match e with
  | KeyboardInterrupt => false
  | _ => true
  end.

Inductive result (A : Type) : Type :=
| Ok (a : A)
| Raise (e : exn).

Arguments Ok {A} a.
Arguments Raise {A} e.

Definition rbind {A B : Type} (r : result A) (k : A -> result B) : result B :=
  match r with
  | Ok a => k a
  | Raise e => Raise e
  end.

Declare Scope result_scope.
Delimit Scope result_scope with result.
Notation "x <- r ;; k" := (rbind r (fun x => k))
  (at level 61, r at next level, right associativity) : result_scope.

(** ** Python dictionaries with integer keys *)

Module PyDict.

Definition t (V : Type) : Type := list (Z * V).

Definition keys {V : Type} (d : t V) : list Z := map fst d.
Definition values {V : Type} (d : t V) : list V := map snd d.
Definition items {V : Type} (d : t V) : list (Z * V) := d.

(** The representation invariant of a dictionary. *)
Definition wf {V : Type} (d : t V) : Prop := NoDup (keys d).

Fixpoint get {V : Type} (d : t V) (k : Z) : option V :=
  match d with
  | [] => None
  | (k', v) :: d' => if Z.eqb k k' then Some v else get d' k
  end.

(** [d[k] = v]: an existing key keeps its place, a new key goes last. *)
Fixpoint set {V : Type} (d : t V) (k : Z) (v : V) : t V :=
  match d with
  | [] => [(k, v)]
  | (k', v') :: d' =>
      if Z.eqb k k' then (k', v) :: d' else (k', v') :: set d' k v
  end.

(** [dict(pairs)]. *)
Definition of_items {V : Type} (l : list (Z * V)) : t V :=
  fold_left (fun d kv => set d (fst kv) (snd kv)) l [].

Definition mem {V : Type} (d : t V) (k : Z) : bool :=
  match get d k with
  | Some _ => true
  | None => false
  end.

End PyDict.

(** ** Python numbers *)

Local Open Scope Q_scope.

(** [a / b] on floats: [ZeroDivisionError] when [b == 0]. *)
Definition py_div (a b : Q) : result Q :=
  if Qeq_bool b 0 then Raise ZeroDivisionError else Ok (a / b).

(** [int(x)] truncates towards zero. *)
Definition py_int (x : Q) : Z := Z.quot (Qnum x) (Zpos (Qden x)).

(** [sum(xs)]: starts from [0] and adds from the left. *)
Definition py_sum (xs : list Q) : Q := fold_left Qplus xs 0.

(** [max(a, b)] returns [a] unless [b > a]. *)
Definition py_max (a b : Q) : Q := if Qle_bool b a then a else b.

(** [l[:k]]: a negative [k] counts from the end. *)
Definition slice_to {A : Type} (k : Z) (l : list A) : list A :=
  if (0 <=? k)%Z then firstn (Z.to_nat k) l
  else firstn (Z.to_nat (Z.of_nat (List.length l) + k)) l.

(** ** [cut_to_max_allowed_weights] *)

(** [sorted(items, key=lambda x: x[1], reverse=True)] is a stable sort by
    decreasing score.  [insert_desc x l] puts [x], which comes before every
    element of [l] in the input, in front of the first element whose score is
    not greater than its own. *)
Fixpoint insert_desc (x : Z * Q) (l : list (Z * Q)) : list (Z * Q) :=
  match l with
  | [] => [x]
  | y :: l' =>
      if Qle_bool (snd y) (snd x) then x :: y :: l'
      else y :: insert_desc x l'
  end.

Definition sorted_desc (l : list (Z * Q)) : list (Z * Q) :=
  fold_right insert_desc [] l.

Definition cut_to_max_allowed_weights
    (score_dict : PyDict.t Q) (max_allowed_weights : Z) : PyDict.t Q :=
  let sorted_scores := sorted_desc (PyDict.items score_dict) in
  let cut_scores := slice_to max_allowed_weights sorted_scores in
  PyDict.of_items cut_scores.

(** ** The world outside: log lines, peer calls and ledger calls *)

(** Values whose Python type matters to the reader of an address. *)
Inductive pyval : Type :=
| PyStr (s : string)
| PyInt (z : Z).

Inductive log_line : Type :=
| LogPollStart (uid : Z)
| LogPollOk (uid : Z)
| LogPollFailed (uid : Z) (e : exn)
| LogSelected (ids : list Z)
| LogSkipping (uid : Z)
| LogNoValidAnswer
| LogSetWeights (scores : PyDict.t Q).

Inductive event : Type :=
| EvLog (l : log_line)
| EvCall (module_ip : pyval) (port : Z) (miner_key : string)
| EvVote (uids : list Z) (weights : list Z) (netuid : Z).

Definition trace : Type := list event.

(** ** [set_weights] *)

(** The loop of lines 78-83. *)
Fixpoint weigh (its : list (Z * Q)) (scores : Q) (weighted_scores : PyDict.t Z)
  : result (PyDict.t Z) :=
  match its with
  | [] => Ok weighted_scores
  | (uid, score) :: rest =>
      (q <- py_div (score * 1000) scores ;;
       weigh rest scores (PyDict.set weighted_scores uid (py_int q)))%result
  end.

(** Lines 68-87: the weights that [set_weights] hands to the ledger. *)
Definition weighted_scores_of (max_allowed_weights : Z) (score_dict : PyDict.t Q)
  : result (PyDict.t Z) :=
  let score_dict := cut_to_max_allowed_weights score_dict max_allowed_weights in
  let scores := py_sum (PyDict.values score_dict) in
  (weighted_scores <- weigh (PyDict.items score_dict) scores [] ;;
   Ok (filter (fun kv => negb (Z.eqb (snd kv) 0)) weighted_scores))%result.

(** Lines 47-92.  The vote is sent whatever the weights are. *)
Definition set_weights (max_allowed_weights : Z) (score_dict : PyDict.t Q)
    (netuid : Z) (tr : trace) : result unit * trace :=
  match weighted_scores_of max_allowed_weights score_dict with
  | Raise e => (Raise e, tr)
  | Ok weighted_scores =>
      let uids := PyDict.keys weighted_scores in
      let weights := PyDict.values weighted_scores in
      (Ok tt, tr ++ [EvVote uids weights netuid])
  end.

(** ** [IP_REGEX], [extract_address] and [get_ip_port] *)

(** The fragment of regular expressions [IP_REGEX] is written in: a sequence
    of character classes, each with a greedy repetition count.  Strings are
    byte strings, so [\d] is an ASCII digit. *)
Inductive char_class : Type :=
| Digit
| Lit (c : ascii).

Record atom : Type := Atom {
  atom_class : char_class;
  atom_min : nat;
  atom_max : option nat   (* [None]: no upper bound *)
}.

Definition regex : Type := list atom.

Definition is_digit (a : ascii) : bool :=
  let n := nat_of_ascii a in (48 <=? n)%nat && (n <=? 57)%nat.

Definition class_mem (c : char_class) (a : ascii) : bool :=
  match c with
  | Digit => is_digit a
  | Lit x => Ascii.eqb a x
  end.

Definition digits (lo : nat) (hi : option nat) : atom := Atom Digit lo hi.
Definition lit (c : ascii) : atom := Atom (Lit c) 1 (Some 1%nat).

(** [r"\d{1,3}\.\d{1,3}\.\d{1,3}\.\d{1,3}:\d+"] *)
Definition IP_REGEX : regex :=
  [ digits 1 (Some 3%nat); lit "."; digits 1 (Some 3%nat); lit ".";
    digits 1 (Some 3%nat); lit "."; digits 1 (Some 3%nat); lit ":";
    digits 1 None ]%char.

(** Number of leading characters of [s] in class [c]. *)
Fixpoint run_length (c : char_class) (s : string) : nat :=
  match s with
  | String a s' => if class_mem c a then S (run_length c s') else O
  | EmptyString => O
  end.

Fixpoint drop (n : nat) (s : string) : string :=
  match n, s with
  | S n', String _ s' => drop n' s'
  | _, _ => s
  end.

Fixpoint take (n : nat) (s : string) : string :=
  match n, s with
  | S n', String a s' => String a (take n' s')
  | _, _ => EmptyString
  end.

(** Greedy repetition with backtracking: [k] repetitions first, then fewer,
    never fewer than [lo]; [f k] matches the rest of the pattern. *)
Fixpoint backtrack (f : nat -> option nat) (lo k : nat) : option nat :=
  if (k <? lo)%nat then None
  else match f k with
       | Some n => Some (k + n)%nat
       | None =>
           match k with
           | O => None
           | S k' => backtrack f lo k'
           end
       end.

(** Length of the match of [r] at the start of [s], if there is one. *)
Fixpoint match_here (r : regex) (s : string) : option nat :=
  match r with
  | [] => Some O
  | a :: r' =>
      let avail := run_length (atom_class a) s in
      let hi := match atom_max a with
                | Some m => Nat.min m avail
                | None => avail
                end in
      backtrack (fun k => match_here r' (drop k s)) (atom_min a) hi
  end.

(** [re.search(r, s)]: the match at the leftmost position that has one;
    the result is [group(0)]. *)
Fixpoint re_search (r : regex) (s : string) : option string :=
  match match_here r s with
  | Some n => Some (take n s)
  | None =>
      match s with
      | EmptyString => None
      | String _ s' => re_search r s'
      end
  end.

Definition extract_address (s : string) : option string :=
  re_search IP_REGEX s.

(** [s.split(sep)] for a one-character separator. *)
Fixpoint split_on (sep : ascii) (s : string) : list string :=
  match s with
  | EmptyString => [EmptyString]
  | String c s' =>
      if Ascii.eqb c sep then EmptyString :: split_on sep s'
      else match split_on sep s' with
           | [] => [String c EmptyString]
           | w :: ws => String c w :: ws
           end
  end.

Definition get_ip_port (modules_adresses : PyDict.t string)
  : PyDict.t (list pyval) :=
  let filtered_addr :=
    map (fun kv => (fst kv, extract_address (snd kv)))
        (PyDict.items modules_adresses) in
  flat_map (fun kv =>
              match snd kv with
              | Some x => [(fst kv, map PyStr (split_on ":" x))]
              | None => []
              end) filtered_addr.

(** [int(x)]: a string of ASCII digits is read in base ten. *)
Definition digit_value (a : ascii) : Z := Z.of_nat (nat_of_ascii a) - 48.

Fixpoint parse_digits (s : string) (acc : Z) : result Z :=
  match s with
  | EmptyString => Ok acc
  | String a s' =>
      if is_digit a then parse_digits s' (10 * acc + digit_value a)%Z
      else Raise ValueError
  end.

Definition py_int_of (v : pyval) : result Z :=
  match v with
  | PyInt z => Ok z
  | PyStr EmptyString => Raise ValueError
  | PyStr s => parse_digits s 0%Z
  end.

(** ** The bigram vectorizer

    [CountVectorizer(analyzer='char', ngram_range=(2, 2))] of scikit-learn,
    which the repository imports: the text is lower-cased, every run of two
    or more white-space characters becomes one space, and the tokens are the
    character bigrams.  [fit_transform] sorts the distinct tokens into the
    vocabulary, raises [ValueError] ("empty vocabulary") when there is none,
    and otherwise returns one row of token counts per document. *)

Definition lower (a : ascii) : ascii :=
  let n := nat_of_ascii a in
  if (65 <=? n)%nat && (n <=? 90)%nat then ascii_of_nat (n + 32) else a.

Definition is_space (a : ascii) : bool :=
  let n := nat_of_ascii a in
  ((9 <=? n)%nat && (n <=? 13)%nat) || ((28 <=? n)%nat && (n <=? 32)%nat).

Fixpoint lowercase (s : string) : string :=
  match s with
  | EmptyString => EmptyString
  | String a s' => String (lower a) (lowercase s')
  end.

(** What a white-space run of the given length is replaced with; [c] is its
    first character. *)
Definition flush_run (run : option (ascii * nat)) (rest : string) : string :=
  match run with
  | None => rest
  | Some (c, O) => String c rest
  | Some (_, S _) => String " " rest
  end.

(** [re.sub(r"\s\s+", " ", s)]; [run] is the white-space run being read: its
    first character and how many more followed. *)
Fixpoint white_spaces_sub (run : option (ascii * nat)) (s : string) : string :=
  match s with
  | EmptyString => flush_run run EmptyString
  | String a s' =>
      if is_space a then
        white_spaces_sub (match run with
                          | None => Some (a, O)
                          | Some (c, n) => Some (c, S n)
                          end) s'
      else flush_run run (String a (white_spaces_sub None s'))
  end.

Fixpoint char_bigrams (s : string) : list string :=
  match s with
  | String a (String b _ as s') =>
      String a (String b EmptyString) :: char_bigrams s'
  | _ => []
  end.

Definition analyze (doc : string) : list string :=
  char_bigrams (white_spaces_sub None (lowercase doc)).

Fixpoint insert_term (t : string) (vocab : list string) : list string :=
  match vocab with
  | [] => [t]
  | u :: vocab' =>
      match String.compare t u with
      | Lt => t :: u :: vocab'
      | Eq => u :: vocab'
      | Gt => u :: insert_term t vocab'
      end
  end.

Definition vocabulary (docs : list (list string)) : list string :=
  fold_left (fun v t => insert_term t v) (List.concat docs) [].

Definition fit_transform (raw_documents : list string) : result (list (list Z)) :=
  let docs := map analyze raw_documents in
  match vocabulary docs with
  | [] => Raise ValueError
  | vocab =>
      Ok (map (fun doc =>
                 map (fun t => Z.of_nat (count_occ string_dec doc t)) vocab)
              docs)
  end.

(** ** The Dice distance

    [scipy.spatial.distance.dice(u, v)], which the repository imports, on
    two rows of counts: with [ntt = (u * v).sum()],
    [nft = ((1 - u) * v).sum()] and [ntf = (u * (1 - v)).sum()] it returns
    [(ntf + nft) / (2 * ntt + ntf + nft)], a division of numpy: by zero it
    raises nothing and gives an infinity, or, for [0 / 0], the float that is
    not a number. *)

Inductive np_float : Type :=
| Finite (q : Q)
| Infinity (negative : bool)
| NaN.

Definition np_true_divide (a b : Z) : np_float :=
  if (b =? 0)%Z then
    if (a =? 0)%Z then NaN else Infinity (a <? 0)%Z
  else Finite (inject_Z a / inject_Z b).

(** [(f(u, v)).sum()] for an elementwise [f]. *)
Definition row_sum (f : Z -> Z -> Z) (u v : list Z) : Z :=
  fold_left (fun acc uv => (acc + f (fst uv) (snd uv))%Z) (combine u v) 0%Z.

Definition scipy_dice (u v : list Z) : np_float :=
  let ntt := row_sum (fun a b => a * b)%Z u v in
  let nft := row_sum (fun a b => (1 - a) * b)%Z u v in
  let ntf := row_sum (fun a b => a * (1 - b))%Z u v in
  np_true_divide (ntf + nft) (2 * ntt + ntf + nft).

(** ** Lists indexed the Python way *)

Definition index {A : Type} (l : list A) (i : nat) : result A :=
  match nth_error l i with
  | Some x => Ok x
  | None => Raise IndexError
  end.

(** [l[i] += x]; every use below has [i] in range. *)
Fixpoint add_at (l : list Q) (i : nat) (x : Q) : list Q :=
  match l, i with
  | [], _ => []
  | y :: l', O => (y + x) :: l'
  | y :: l', S i' => y :: add_at l' i' x
  end.

(** The double loop shared by the three [calculate_*_scores] methods:
    [scores = [0] * n], then [scores[i] += similarity(i, j) * 0.1] for every
    [i], [j] in [range(n)] with [i != j]. *)
Definition pairwise_scores (similarity : nat -> nat -> Q) (n : nat) : list Q :=
  fold_left
    (fun scores i =>
       fold_left
         (fun scores j =>
            if negb (Nat.eqb i j) then add_at scores i (similarity i j * 0.1)
            else scores)
         (seq 0 n) scores)
    (seq 0 n) (repeat 0 n).

(** ** Responses of peers *)

Inductive pyobj : Type :=
| PNone
| PStr (s : string)
| PNum (q : Q)
| PDict (fields : list (string * pyobj)).

Fixpoint field_get (fields : list (string * pyobj)) (k : string) : option pyobj :=
  match fields with
  | [] => None
  | (k', v) :: fields' => if String.eqb k k' then Some v else field_get fields' k
  end.

Fixpoint field_set (fields : list (string * pyobj)) (k : string) (v : pyobj)
  : list (string * pyobj) :=
  match fields with
  | [] => [(k, v)]
  | (k', v') :: fields' =>
      if String.eqb k k' then (k', v) :: fields'
      else (k', v') :: field_set fields' k v
  end.

(** [o[k]] for a string [k]. *)
Definition subscript (o : pyobj) (k : string) : result pyobj :=
  match o with
  | PDict fields =>
      match field_get fields k with
      | Some v => Ok v
      | None => Raise KeyError
      end
  | _ => Raise TypeError
  end.

(** [o[k] = v] for a string [k]. *)
Definition set_item (o : pyobj) (k : string) (v : pyobj) : result pyobj :=
  match o with
  | PDict fields => Ok (PDict (field_set fields k v))
  | _ => Raise TypeError
  end.

(** [not o] is [negb (truthy o)]. *)
Definition truthy (o : pyobj) : bool :=
  match o with
  | PNone => false
  | PStr s => negb (String.eqb s EmptyString)
  | PNum q => negb (Qeq_bool q 0)
  | PDict fields => match fields with [] => false | _ => true end
  end.

(** The scorer's libraries take text and numbers; anything else makes them
    raise when scoring starts, recorded here as [TypeError]. *)
Definition as_text (o : pyobj) : result string :=
  match o with
  | PStr s => Ok s
  | _ => Raise TypeError
  end.

Definition as_number (o : pyobj) : result Q :=
  match o with
  | PNum q => Ok q
  | _ => Raise TypeError
  end.

Fixpoint mapM {A B : Type} (f : A -> result B) (l : list A) : result (list B) :=
  match l with
  | [] => Ok []
  | x :: l' => (y <- f x ;; ys <- mapM f l' ;; Ok (y :: ys))%result
  end.

(** What a call to a peer does: it returns a payload after some seconds, or
    it raises. *)
Inductive call_outcome : Type :=
| Returns (payload : pyobj) (elapsed : Q)
| Raises (e : exn).

(** The ledger, the peers and the task source of one round. *)
Record world : Type := World {
  query_map_address : Z -> PyDict.t string;
  query_map_key : Z -> PyDict.t string;
  get_uids : string -> Z -> Z;
  module_call : pyval -> Z -> string -> string -> call_outcome;
  get_miner_prompt : string;
  ss58_address : string
}.

(** ** A monad for code that raises and talks to the outside world *)

Definition M (A : Type) : Type := trace -> result A * trace.

Definition ret {A : Type} (a : A) : M A := fun tr => (Ok a, tr).

Definition raise {A : Type} (e : exn) : M A := fun tr => (Raise e, tr).

Definition bind {A B : Type} (m : M A) (k : A -> M B) : M B :=
  fun tr =>
    match m tr with
    | (Ok a, tr') => k a tr'
    | (Raise e, tr') => (Raise e, tr')
    end.

Definition emit (ev : event) : M unit := fun tr => (Ok tt, tr ++ [ev]).

Definition log (l : log_line) : M unit := emit (EvLog l).

Definition lift {A : Type} (r : result A) : M A := fun tr => (r, tr).

(** [try: body  except Exception as e: handler e]. *)
Definition try_except {A : Type} (body : M A) (handler : exn -> M A) : M A :=
  fun tr =>
    match body tr with
    | (Ok a, tr') => (Ok a, tr')
    | (Raise e, tr') =>
        if is_Exception e then handler e tr' else (Raise e, tr')
    end.

Declare Scope M_scope.
Delimit Scope M_scope with M.
Notation "x <- m ;; k" := (bind m (fun x => k))
  (at level 61, m at next level, right associativity) : M_scope.
Notation "m ;; k" := (bind m (fun _ => k))
  (at level 61, right associativity) : M_scope.

Fixpoint mapMM {A B : Type} (f : A -> M B) (l : list A) : M (list B) :=
  match l with
  | [] => ret []
  | x :: l' => (y <- f x ;; ys <- mapMM f l' ;; ret (y :: ys))%M
  end.

(** ** [TextValidator] *)

Section TextValidator.

(** The three similarity measures come from libraries outside the
    repository: [jellyfish.jaro_winkler_similarity],
    [scipy.spatial.distance.dice] on two rows of counts, and
    [difflib.SequenceMatcher(None, a, b).ratio()].  As parameters they
    return numbers; [scipy_dice] tells for which rows the Dice distance is
    one. *)
Variable jaro_winkler_similarity : string -> string -> Q.
Variable dice : list Z -> list Z -> Q.
Variable ratio : string -> string -> Q.

(** [self.netuid], and the world the validator runs in. *)
Variable self_netuid : Z.
Variable w : world.

Definition text_at (strings : list string) (i : nat) : string :=
  nth i strings EmptyString.

Definition calculate_jaro_winkler_scores (strings : list string) : list Q :=
  let n := List.length strings in
  pairwise_scores
    (fun i j => jaro_winkler_similarity (text_at strings i) (text_at strings j))
    n.

Definition calculate_dice_similarity_scores (strings : list string)
  : result (list Q) :=
  (X <- fit_transform strings ;;
   let n := List.length strings in
   Ok (pairwise_scores (fun i j => 1 - dice (nth i X []) (nth j X [])) n))%result.

Definition calculate_ratcliff_obershelp_scores (strings : list string) : list Q :=
  let n := List.length strings in
  pairwise_scores (fun i j => ratio (text_at strings i) (text_at strings j)) n.

(** The loop of lines 310-312; [i] is the index [enumerate] has reached. *)
Fixpoint score_loop (jaro_winkler_scores dice_scores ratcliff_obershelp_scores : list Q)
    (miner_uids : list Z) (i : nat) (miner_time : list Q)
    (score_dict : PyDict.t Q) : result (PyDict.t Q) :=
  match miner_time with
  | [] => Ok score_dict
  | time :: rest =>
      let time := py_max time 1 in
      (jw <- index jaro_winkler_scores i ;;
       dc <- index dice_scores i ;;
       ro <- index ratcliff_obershelp_scores i ;;
       inv <- py_div 1 time ;;
       uid <- index miner_uids i ;;
       score_loop jaro_winkler_scores dice_scores ratcliff_obershelp_scores
         miner_uids (S i) rest
         (PyDict.set score_dict uid ((jw + dc + ro) / 3 * 0.8 + inv * 0.2)))%result
  end.

Definition _score_miner (miner_res : list string) (miner_uids : list Z)
    (miner_time : list Q) : result (PyDict.t Q) :=
  let jaro_winkler_scores := calculate_jaro_winkler_scores miner_res in
  (dice_scores <- calculate_dice_similarity_scores miner_res ;;
   let ratcliff_obershelp_scores := calculate_ratcliff_obershelp_scores miner_res in
   score_loop jaro_winkler_scores dice_scores ratcliff_obershelp_scores
     miner_uids 0 miner_time [])%result.

(** Lines 214-259.  The client is built and the uid looked up before the
    [try]; the call, the unpacking of its answer and the latency stamp are
    inside it. *)
Definition _get_miner_prediction (question : string)
    (miner_info : list pyval * string) : M pyobj :=
  let (connection, miner_key) := miner_info in
  match connection with
  | [module_ip; module_port] =>
      (port <- lift (py_int_of module_port) ;;
       let uid := get_uids w miner_key self_netuid in
       log (LogPollStart uid) ;;
       try_except
         (emit (EvCall module_ip port miner_key) ;;
          match module_call w module_ip port miner_key question with
          | Raises e => raise e
          | Returns payload response_time =>
              miner_answer <- lift (subscript payload "answer") ;;
              miner_answer <- lift (set_item miner_answer "response_time"
                                      (PNum response_time)) ;;
              log (LogPollOk uid) ;;
              ret miner_answer
          end)
         (fun e => log (LogPollFailed uid e) ;; ret PNone))%M
  | _ => raise ValueError
  end.

(** Lines 353-357. *)
Definition select_modules (modules_keys : PyDict.t string)
    (modules_filtered_address : PyDict.t (list pyval))
  : PyDict.t (list pyval * string) :=
  fold_left
    (fun modules_info kv =>
       let module_id := fst kv in
       match PyDict.get modules_filtered_address module_id with
       | None => modules_info
       | Some [] => modules_info
       | Some module_addr =>
           PyDict.set modules_info module_id (module_addr, snd kv)
       end)
    (PyDict.items modules_keys) [].

(** Lines 370-379: the answers that are kept, with their latencies and uids. *)
Fixpoint collect (answers : list (Z * pyobj))
    (miner_res : list pyobj) (miner_time : list pyobj) (miner_uids : list Z)
  : M (list pyobj * list pyobj * list Z) :=
  match answers with
  | [] => ret (miner_res, miner_time, miner_uids)
  | (uid, miner_response) :: rest =>
      if negb (truthy miner_response) then
        (log (LogSkipping uid) ;;
         collect rest miner_res miner_time miner_uids)%M
      else
        (response <- lift (subscript miner_response "response") ;;
         response_time <- lift (subscript miner_response "response_time") ;;
         collect rest (miner_res ++ [response]) (miner_time ++ [response_time])
           (miner_uids ++ [uid]))%M
  end.

(** Lines 330-389.  The pool of eight workers runs the calls in some
    interleaving; [executor.map] hands their results back in the order of the
    peers, and the trace lists them in that order. *)
Definition validate_step (syntia_netuid : Z) (max_allowed_weights : Z) : M unit :=
  let modules_adresses := query_map_address w syntia_netuid in
  let modules_keys := query_map_key w syntia_netuid in
  let val_ss58 := ss58_address w in
  if negb (existsb (String.eqb val_ss58) (PyDict.values modules_keys)) then
    raise RuntimeError
  else
    let modules_filtered_address := get_ip_port modules_adresses in
    let modules_info := select_modules modules_keys modules_filtered_address in
    let miner_prompt := get_miner_prompt w in
    (log (LogSelected (PyDict.keys modules_info)) ;;
     miner_answers <- mapMM (_get_miner_prediction miner_prompt)
                        (PyDict.values modules_info) ;;
     collected <- collect (combine (PyDict.keys modules_info) miner_answers)
                    [] [] [] ;;
     let '(miner_res, miner_time, miner_uids) := collected in
     texts <- lift (mapM as_text miner_res) ;;
     times <- lift (mapM as_number miner_time) ;;
     score_dict <- lift (_score_miner texts miner_uids times) ;;
     match score_dict with
     | [] => log LogNoValidAnswer ;; ret tt
     | _ =>
         set_weights max_allowed_weights score_dict self_netuid ;;
         log (LogSetWeights score_dict) ;;
         ret tt
     end)%M.

End TextValidator.

(** ** [get_subnet_netuid] and [get_miner_prompt] *)

(** Lines 139-143; [subnets] is what [query_map_subnet_names()] returned. *)
Fixpoint find_subnet (its : list (Z * string)) (subnet_name : string)
  : result Z :=
  match its with
  | [] => Raise ValueError
  | (netuid, name) :: rest =>
      if String.eqb name subnet_name then Ok netuid
      else find_subnet rest subnet_name
  end.

Definition get_subnet_netuid (subnets : PyDict.t string) (subnet_name : string)
  : result Z :=
  find_subnet (PyDict.items subnets) subnet_name.

(** The loop of lines 326-328; [i] is the index [enumerate] has reached.
    Falling out of the loop returns [None]. *)
Fixpoint prompt_loop (i : Z) (documents : list string) (random_number : Z)
  : option string :=
  match documents with
  | [] => None
  | document :: rest =>
      if (random_number <? i)%Z then Some document
      else prompt_loop (i + 1)%Z rest random_number
  end.

(** Lines 315-328 of [TextValidator.get_miner_prompt]: [documents] are the
    texts the reader yields (at most 100) and [random_number] is what
    [random.randint(0, 99)] drew. *)
Definition draw_miner_prompt (documents : list string) (random_number : Z)
  : option string :=
  prompt_loop 0 documents random_number.

(** ** Notions the properties are stated with *)

(** *** Ranking of scores *)

(** [x] stands before [y] in [l]. *)
Definition before {A : Type} (l : list A) (x y : A) : Prop :=
  exists l1 l2 l3, l = l1 ++ x :: l2 ++ y :: l3.

(** [x] is ranked before [y]: a higher score, or the same score and an
    earlier place in the dictionary. *)
Definition ranks_before (score_dict : PyDict.t Q) (x y : Z * Q) : Prop :=
  snd y < snd x \/ (snd x == snd y /\ before score_dict x y).

(** *** Sums and weights *)

Fixpoint Qsum (l : list Q) : Q :=
  match l with
  | [] => 0
  | x :: l' => x + Qsum l'
  end.


(** The entry the loop of [set_weights] writes for one kept score. *)
Definition weight_entry (scores : Q) (kv : Z * Q) : Z * Z :=
  (fst kv, py_int (snd kv * 1000 / scores)).

(** The score map [{i: 1.0 for i in range(n)}]. *)
Definition equal_scores (n : nat) : PyDict.t Q :=
  map (fun i => (Z.of_nat i, 1)) (seq 0 n).

(** *** Aggregates of a similarity measure *)

(** The sum over all [j <> i] below [n] of the similarity of [i] and [j],
    each scaled by the per-pair weight [0.1]. *)
Definition aggregate (similarity : nat -> nat -> Q) (n i : nat) : Q :=
  Qsum (map (fun j => similarity i j * 0.1)
            (filter (fun j => negb (Nat.eqb j i)) (seq 0 n))).

(** What the inner loop of [pairwise_scores] adds to [scores[i]] while [j]
    runs through [js]. *)
Definition accumulate (similarity : nat -> nat -> Q) (i : nat) (js : list nat)
    (start : Q) : Q :=
  fold_left (fun acc j => if negb (Nat.eqb i j) then acc + similarity i j * 0.1
                          else acc) js start.

(** The score that the loop of [_score_miner] writes for index [i]. *)
Definition raw_score (jaro_winkler_scores dice_scores ratcliff_obershelp_scores
    : list Q) (i : nat) (time : Q) : Q :=
  (nth i jaro_winkler_scores 0 + nth i dice_scores 0
   + nth i ratcliff_obershelp_scores 0) / 3 * 0.8
  + 1 / py_max time 1 * 0.2.

(** *** The host:port pattern *)

Fixpoint all_digits (s : string) : bool :=
  match s with
  | EmptyString => true
  | String a s' => is_digit a && all_digits s'
  end.

(** One to three digits. *)
Definition octet (s : string) : Prop :=
  all_digits s = true /\ (1 <= String.length s <= 3)%nat.

(** [h] is four octets joined by dots and [p] is one or more digits. *)
Definition host_port (h p : string) : Prop :=
  (exists o1 o2 o3 o4,
      octet o1 /\ octet o2 /\ octet o3 /\ octet o4 /\
      h = (o1 ++ "." ++ o2 ++ "." ++ o3 ++ "." ++ o4)%string) /\
  all_digits p = true /\ (1 <= String.length p)%nat.

Definition contains_host_port (s : string) : Prop :=
  exists pre h p post,
    host_port h p /\ s = (pre ++ h ++ ":" ++ p ++ post)%string.

Definition is_int (v : pyval) : bool :=
  match v with
  | PyInt _ => true
  | PyStr _ => false
  end.

Fixpoint all_in (c : char_class) (s : string) : bool :=
  match s with
  | EmptyString => true
  | String a s' => class_mem c a && all_in c s'
  end.

Definition within (hi : option nat) (n : nat) : Prop :=
  match hi with
  | Some m => (n <= m)%nat
  | None => True
  end.

(** The strings a pattern denotes: one block of characters per atom, of the
    atom's class and of a length its bounds allow. *)
Inductive matches : regex -> string -> Prop :=
| matches_nil : matches [] EmptyString
| matches_cons (a : atom) (r : regex) (w1 w2 : string) :
    all_in (atom_class a) w1 = true ->
    (atom_min a <= String.length w1)%nat ->
    within (atom_max a) (String.length w1) ->
    matches r w2 ->
    matches (a :: r) (w1 ++ w2)%string.

(** [c] does not occur in [s]. *)
Fixpoint lacks (c : ascii) (s : string) : bool :=
  match s with
  | EmptyString => true
  | String a s' => negb (Ascii.eqb a c) && lacks c s'
  end.

(** The input of the address example. *)
Definition example_addresses : PyDict.t string :=
  [(1%Z, "garbage"%string); (2%Z, "10.0.0.5:9000 extra"%string)].

(** *** Rounds used as examples *)

(** A roster of the validator (uid 0) and two miners (uids 1 and 2) that
    have published their addresses; what each miner's call does is a
    parameter. *)
Definition two_miner_world (validator_key : string)
    (outcome1 outcome2 : call_outcome) : world :=
  {| query_map_address :=
       fun _ => [(1%Z, "10.0.0.5:9000"%string); (2%Z, "10.0.0.6:9000"%string)];
     query_map_key :=
       fun _ => [(0%Z, "5Validator"%string); (1%Z, "5MinerA"%string);
                 (2%Z, "5MinerB"%string)];
     get_uids := fun miner_key _ =>
                   if String.eqb miner_key "5MinerA" then 1%Z else 2%Z;
     module_call := fun _ _ miner_key _ =>
                      if String.eqb miner_key "5MinerA" then outcome1
                      else outcome2;
     get_miner_prompt := "What is a subnet?"%string;
     ss58_address := validator_key |}.

(** The payload [{"answer": {"response": text}}]. *)
Definition answer_with (text : string) : pyobj :=
  PDict [("answer"%string, PDict [("response"%string, PStr text)])].

(** The payload [{"answer": {"text": "hi"}}]: an answer without the
    ["response"] field. *)
Definition answer_without_response : pyobj :=
  PDict [("answer"%string, PDict [("text"%string, PStr "hi")])].

(** A measure that gives every pair the same similarity. *)
Definition const_measure {A : Type} (q : Q) : A -> A -> Q := fun _ _ => q.

(** The weight of [uid] in a weight map; a peer that is not in the map has
    none. *)
Definition weight_in (weighted_scores : PyDict.t Z) (uid : Z) : Z :=
  match PyDict.get weighted_scores uid with
  | Some weight => weight
  | None => 0%Z
  end.

(** [s] is empty or starts with a character outside the class [c]: a
    greedy block of [c] stops in front of it. *)
Definition stops_at (c : char_class) (s : string) : Prop :=
  match s with
  | EmptyString => True
  | String a _ => class_mem c a = false
  end.

(** What the answer of one peer becomes: the stamped answer, or [None] when
    the call raised or the payload could not be unpacked. *)
Definition prediction_of (outcome : call_outcome) : pyobj :=
  match outcome with
  | Raises _ => PNone
  | Returns payload response_time =>
      match (miner_answer <- subscript payload "answer" ;;
             set_item miner_answer "response_time" (PNum response_time))%result with
      | Ok miner_answer => miner_answer
      | Raise _ => PNone
      end
  end.

(** A call that raises something [except Exception] does not catch. *)
Definition interrupts (outcome : call_outcome) : bool :=
  match outcome with
  | Raises e => negb (is_Exception e)
  | Returns _ _ => false
  end.

(** The peer a polling entry stands for and what its call does; [None] when
    the entry is not a pair of an address and a readable port. *)
Definition outcome_of (w : world) (question : string)
    (miner_info : list pyval * string) : option call_outcome :=
  match fst miner_info with
  | [module_ip; module_port] =>
      match py_int_of module_port with
      | Ok port => Some (module_call w module_ip port (snd miner_info) question)
      | Raise _ => None
      end
  | _ => None
  end.

Definition is_vote (ev : event) : bool :=
  match ev with
  | EvVote _ _ _ => true
  | _ => false
  end.

(** The votes among some events. *)
Definition votes (evs : list event) : list event := filter is_vote evs.

(** [m] may log and call peers, but it never votes. *)
Definition quiet {A : Type} (m : M A) : Prop :=
  forall tr r tr', m tr = (r, tr') ->
    exists evs, tr' = tr ++ evs /\ votes evs = [].

(** [m] votes at most once, on [netuid], and not at all when it raises. *)
Definition votes_once {A : Type} (netuid : Z) (m : M A) : Prop :=
  forall tr r tr', m tr = (r, tr') ->
    exists evs, tr' = tr ++ evs /\
      match r with
      | Raise _ => votes evs = []
      | Ok _ => votes evs = [] \/
                exists uids weights, votes evs = [EvVote uids weights netuid]
      end.

(** [h:p] is what [re.search] finds in [s]: the occurrence of the host:port
    pattern that starts leftmost, [pre] being what is in front of it, with
    the port taking every digit there is, [post] being what is left. *)
Definition leftmost_match (s pre h p post : string) : Prop :=
  host_port h p /\
  s = (pre ++ h ++ ":" ++ p ++ post)%string /\
  stops_at Digit post /\
  forall pre' h' p' post',
    host_port h' p' ->
    s = (pre' ++ h' ++ ":" ++ p' ++ post')%string ->
    (String.length pre <= String.length pre')%nat.

(** * Properties *)

(** ** Dictionaries *)

Module PyDictFacts.
Import PyDict.

Lemma set_fresh {V : Type} (d : t V) (k : Z) (v : V) :
  ~ In k (keys d) -> set d k v = d ++ [(k, v)].
Proof.
  induction d as [|[k' v'] d IH]; simpl; intros Hk; [reflexivity|].
  destruct (Z.eqb_spec k k') as [->|Hne].
  - exfalso; apply Hk; now left.
  - f_equal. apply IH. intros Hin; apply Hk; now right.
Qed.

Lemma fold_set_fresh {V : Type} (l : list (Z * V)) (acc : t V) :
  NoDup (keys (acc ++ l)) ->
  fold_left (fun d kv => set d (fst kv) (snd kv)) l acc = acc ++ l.
Proof.
  revert acc; induction l as [|[k v] l IH]; intros acc Hnd; simpl.
  - now rewrite app_nil_r.
  - rewrite set_fresh.
    + rewrite IH; rewrite <- app_assoc; simpl; [reflexivity|exact Hnd].
    + unfold keys in *. rewrite map_app in Hnd. simpl in Hnd.
      apply NoDup_remove_2 in Hnd. intros Hin; apply Hnd.
      apply in_or_app; now left.
Qed.

Lemma of_items_wf {V : Type} (l : list (Z * V)) :
  NoDup (keys l) -> of_items l = l.
Proof.
  intros Hnd. unfold of_items. now rewrite fold_set_fresh.
Qed.



Lemma get_In {V : Type} (d : t V) (k : Z) (v : V) :
  wf d -> In (k, v) d -> get d k = Some v.
Proof.
  unfold wf, keys. induction d as [|[k' v'] d IH]; simpl; intros Hnd Hin; [easy|].
  inversion Hnd as [|? ? Hnotin Hnd']; subst.
  destruct Hin as [Heq|Hin].
  - inversion Heq; subst. now rewrite Z.eqb_refl.
  - destruct (Z.eqb_spec k k') as [->|Hne].
    + exfalso. apply Hnotin. apply (in_map fst) in Hin. exact Hin.
    + now apply IH.
Qed.

Lemma get_Some_In {V : Type} (d : t V) (k : Z) (v : V) :
  get d k = Some v -> In (k, v) d.
Proof.
  induction d as [|[k' v'] d IH]; simpl; [easy|].
  destruct (Z.eqb_spec k k') as [->|Hne]; intros H.
  - inversion H; subst; now left.
  - right; now apply IH.
Qed.

End PyDictFacts.

(** ** The stable sort by decreasing score *)

Section SortedDesc.

Lemma insert_desc_perm (x : Z * Q) (l : list (Z * Q)) :
  Permutation (x :: l) (insert_desc x l).
Proof.
  induction l as [|y l IH]; simpl; [apply Permutation_refl|].
  destruct (Qle_bool (snd y) (snd x)); [apply Permutation_refl|].
  eapply perm_trans; [apply perm_swap|]. now apply perm_skip.
Qed.

Lemma sorted_desc_perm (l : list (Z * Q)) : Permutation l (sorted_desc l).
Proof.
  induction l as [|x l IH]; simpl; [constructor|].
  eapply perm_trans; [|apply insert_desc_perm]. now apply perm_skip.
Qed.

Lemma sorted_desc_length (l : list (Z * Q)) :
  List.length (sorted_desc l) = List.length l.
Proof. symmetry. apply Permutation_length, sorted_desc_perm. Qed.

Lemma before_cons_head {A : Type} (x y : A) (l : list A) :
  In y l -> before (x :: l) x y.
Proof.
  intros Hin. apply in_split in Hin as (l2 & l3 & ->).
  now exists [], l2, l3.
Qed.

Lemma before_cons_tail {A : Type} (a x y : A) (l : list A) :
  before l x y -> before (a :: l) x y.
Proof.
  intros (l1 & l2 & l3 & ->). now exists (a :: l1), l2, l3.
Qed.

Lemma ranks_before_cons (a x y : Z * Q) (d : list (Z * Q)) :
  ranks_before d x y -> ranks_before (a :: d) x y.
Proof.
  intros [Hlt|[Heq Hb]]; [now left|right]. split; [exact Heq|].
  now apply before_cons_tail.
Qed.

Lemma ranks_before_le (d : list (Z * Q)) (x y : Z * Q) :
  ranks_before d x y -> snd y <= snd x.
Proof.
  intros [Hlt|[Heq _]]; [now apply Qlt_le_weak|]. rewrite Heq. apply Qle_refl.
Qed.

(** Inserting the entry that stands first in the dictionary keeps the list
    ranked. *)
Lemma insert_desc_ranked (a : Z * Q) (d s : list (Z * Q)) :
  (forall y, In y s -> In y d) ->
  StronglySorted (ranks_before (a :: d)) s ->
  StronglySorted (ranks_before (a :: d)) (insert_desc a s).
Proof.
  intros Hsub Hs. induction Hs as [|y s Hs IH Hall]; simpl.
  - repeat constructor.
  - destruct (Qle_bool (snd y) (snd a)) eqn:Hle.
    + apply Qle_bool_iff in Hle.
      assert (Hay : ranks_before (a :: d) a y).
      { destruct (Qlt_le_dec (snd y) (snd a)) as [Hlt|Hge]; [now left|right].
        split; [now apply Qle_antisym|].
        apply before_cons_head, Hsub; now left. }
      constructor; [now constructor|]. constructor; [exact Hay|].
      rewrite Forall_forall in Hall |- *. intros z Hz.
      assert (Hzy : snd z <= snd y) by (eapply ranks_before_le, Hall, Hz).
      destruct (Qlt_le_dec (snd z) (snd a)) as [Hlt|Hge]; [now left|right].
      split.
      * apply Qle_antisym; [exact Hge|]. eapply Qle_trans; eassumption.
      * apply before_cons_head, Hsub; now right.
    + assert (Hlt : snd a < snd y).
      { apply Qnot_le_lt. intros H. apply Qle_bool_iff in H. congruence. }
      constructor.
      * apply IH. intros z Hz; apply Hsub; now right.
      * rewrite Forall_forall in Hall |- *. intros z Hz.
        apply (Permutation_in _ (Permutation_sym (insert_desc_perm a s))) in Hz.
        destruct Hz as [<-|Hz]; [now left|now apply Hall].
Qed.

Lemma sorted_desc_ranked (d : list (Z * Q)) :
  StronglySorted (ranks_before d) (sorted_desc d).
Proof.
  induction d as [|a d IH]; simpl; [constructor|].
  apply insert_desc_ranked.
  - intros y Hy. eapply Permutation_in; [|exact Hy].
    apply Permutation_sym, sorted_desc_perm.
  - clear -IH. induction IH as [|y s Hs IHs Hall]; constructor; auto.
    eapply Forall_impl; [|exact Hall]. intros z; apply ranks_before_cons.
Qed.

Lemma StronglySorted_app_inv {A : Type} (R : A -> A -> Prop) (l1 l2 : list A) :
  StronglySorted R (l1 ++ l2) ->
  StronglySorted R l1 /\ forall x y, In x l1 -> In y l2 -> R x y.
Proof.
  induction l1 as [|a l1 IH]; simpl; intros Hs.
  - split; [constructor|easy].
  - inversion Hs as [|? ? Hs' Hall]; subst.
    destruct (IH Hs') as [H1 H2]. split.
    + constructor; [exact H1|].
      rewrite Forall_forall in Hall |- *. intros z Hz. apply Hall.
      apply in_or_app; now left.
    + intros x y [<-|Hx] Hy; [|now apply H2].
      rewrite Forall_forall in Hall. apply Hall. apply in_or_app; now right.
Qed.

End SortedDesc.

(** ** [cut_to_max_allowed_weights] keeps the best-ranked entries *)

Lemma slice_to_nonneg {A : Type} (k : Z) (l : list A) :
  (0 <= k)%Z -> slice_to k l = firstn (Z.to_nat k) l.
Proof.
  intros Hk. unfold slice_to. destruct (Z.leb_spec 0 k); [reflexivity|lia].
Qed.

Lemma slice_to_prefix {A : Type} (k : Z) (l : list A) :
  exists n, slice_to k l = firstn n l.
Proof. unfold slice_to. destruct (0 <=? k)%Z; eauto. Qed.

Lemma NoDup_keys_firstn {V : Type} (n : nat) (l : list (Z * V)) :
  NoDup (PyDict.keys l) -> NoDup (PyDict.keys (firstn n l)).
Proof.
  intros Hnd. rewrite <- (firstn_skipn n l) in Hnd.
  unfold PyDict.keys in *. rewrite map_app in Hnd.
  now apply NoDup_app_remove_r in Hnd.
Qed.

Lemma sorted_desc_wf (d : PyDict.t Q) :
  PyDict.wf d -> PyDict.wf (sorted_desc d).
Proof.
  unfold PyDict.wf, PyDict.keys. intros Hnd.
  eapply Permutation_NoDup; [|exact Hnd].
  apply Permutation_map, sorted_desc_perm.
Qed.

(** On a dictionary the result is a prefix of the sorted items. *)
Lemma cut_to_max_allowed_weights_prefix (score_dict : PyDict.t Q) (k : Z) :
  PyDict.wf score_dict ->
  cut_to_max_allowed_weights score_dict k = slice_to k (sorted_desc score_dict).
Proof.
  intros Hwf. unfold cut_to_max_allowed_weights, PyDict.items.
  apply PyDictFacts.of_items_wf.
  destruct (slice_to_prefix k (sorted_desc score_dict)) as [n ->].
  apply NoDup_keys_firstn. now apply sorted_desc_wf.
Qed.

(** C4.  On every score map and for every ceiling that is a count,
    [cut_to_max_allowed_weights] keeps [max_allowed_weights] entries, or all
    of them when there are fewer; the entries it keeps and those it drops
    make up the map; every kept entry is ranked before every dropped one,
    that is, it has a higher score, or the same score and an earlier place in
    the map's iteration order; the kept entries are listed in that ranking.
    With 500 entries and a ceiling of 420 exactly 420 are kept. *)
Theorem cut_to_max_allowed_weights_top (score_dict : PyDict.t Q)
    (max_allowed_weights : Z) :
  PyDict.wf score_dict ->
  (0 <= max_allowed_weights)%Z ->
  let kept := cut_to_max_allowed_weights score_dict max_allowed_weights in
  exists dropped,
    Permutation score_dict (kept ++ dropped) /\
    List.length kept
      = Nat.min (Z.to_nat max_allowed_weights) (List.length score_dict) /\
    (forall x y, In x kept -> In y dropped -> ranks_before score_dict x y) /\
    StronglySorted (ranks_before score_dict) kept /\
    (List.length score_dict = 500%nat -> max_allowed_weights = 420%Z ->
     List.length kept = 420%nat).
Proof.
  intros Hwf Hk kept. subst kept.
  rewrite (cut_to_max_allowed_weights_prefix _ Hwf), (slice_to_nonneg _ Hk).
  set (n := Z.to_nat max_allowed_weights).
  exists (skipn n (sorted_desc score_dict)).
  pose proof (sorted_desc_ranked score_dict) as Hs.
  rewrite <- (firstn_skipn n (sorted_desc score_dict)) in Hs.
  apply StronglySorted_app_inv in Hs as [Hs1 Hs2].
  assert (Hlen : List.length (firstn n (sorted_desc score_dict))
                 = Nat.min n (List.length score_dict)).
  { now rewrite length_firstn, sorted_desc_length. }
  repeat split.
  - rewrite firstn_skipn. apply sorted_desc_perm.
  - exact Hlen.
  - exact Hs2.
  - exact Hs1.
  - intros H500 H420. rewrite Hlen, H500. subst n. rewrite H420.
    reflexivity.
Qed.

Lemma cut_to_max_allowed_weights_top_witness :
  let score_dict := [(1%Z, 0.5); (2%Z, 0.7); (3%Z, 0.5); (4%Z, 0.7)] in
  let kept := cut_to_max_allowed_weights score_dict 3 in
  PyDict.wf score_dict /\ (0 <= 3)%Z /\
  kept = [(2%Z, 0.7); (4%Z, 0.7); (1%Z, 0.5)] /\
  exists dropped,
    Permutation score_dict (kept ++ dropped) /\
    (forall x y, In x kept -> In y dropped -> ranks_before score_dict x y).
Proof.
  assert (Hwf : PyDict.wf [(1%Z, 0.5); (2%Z, 0.7); (3%Z, 0.5); (4%Z, 0.7)]).
  { unfold PyDict.wf; simpl.
    repeat (constructor; [simpl; intuition discriminate|]). constructor. }
  assert (Hk : (0 <= 3)%Z) by (intro H; discriminate H).
  split; [exact Hwf|]. split; [exact Hk|]. split; [reflexivity|].
  destruct (cut_to_max_allowed_weights_top Hwf Hk)
    as (dropped & Hperm & _ & Hrank & _).
  exists dropped. split; [exact Hperm|exact Hrank].
Defined.

(** ** The weights [set_weights] computes *)

Section Weights.


Lemma py_div_ok (a b : Q) : ~ b == 0 -> py_div a b = Ok (a / b).
Proof.
  intros Hb. unfold py_div. destruct (Qeq_bool b 0) eqn:E; [|reflexivity].
  apply Qeq_bool_eq in E. contradiction.
Qed.

Lemma py_div_zero (a b : Q) : b == 0 -> py_div a b = Raise ZeroDivisionError.
Proof.
  intros Hb. unfold py_div. now rewrite (Qeq_eq_bool _ _ Hb).
Qed.

Lemma py_int_floor (x : Q) : 0 <= x -> py_int x = Qfloor x.
Proof.
  destruct x as [n d]. unfold Qle, py_int, Qfloor; simpl. intros Hn.
  apply Z.quot_div_nonneg; lia.
Qed.







End Weights.





(** The vote is sent with whatever weights were computed: there is no test
    of the weight map before the call. *)
Lemma set_weights_always_votes (max_allowed_weights : Z)
    (score_dict : PyDict.t Q) (netuid : Z) (tr : trace) (wm : PyDict.t Z) :
  weighted_scores_of max_allowed_weights score_dict = Ok wm ->
  set_weights max_allowed_weights score_dict netuid tr
    = (Ok tt, tr ++ [EvVote (PyDict.keys wm) (PyDict.values wm) netuid]).
Proof. intros H. unfold set_weights. now rewrite H. Qed.

(** A kept score set that is not empty and sums to zero makes the first
    division of the loop raise. *)
Lemma weighted_scores_of_zero_total (max_allowed_weights : Z)
    (score_dict : PyDict.t Q) :
  let kept := cut_to_max_allowed_weights score_dict max_allowed_weights in
  kept <> [] -> py_sum (PyDict.values kept) == 0 ->
  weighted_scores_of max_allowed_weights score_dict = Raise ZeroDivisionError.
Proof.
  intros kept Hne Hz. unfold weighted_scores_of. fold kept.
  unfold PyDict.items. destruct kept as [|[uid score] rest]; [congruence|].
  simpl. now rewrite (py_div_zero _ Hz).
Qed.

(** C2, at the score map [{1: 0.0}] with the ceiling 420: the kept scores
    sum to zero, the weighting raises [ZeroDivisionError], and [set_weights]
    passes the exception on without a vote. *)
Theorem set_weights_zero_total_raises :
  py_sum (PyDict.values (cut_to_max_allowed_weights [(1%Z, 0)] 420)) == 0 /\
  weighted_scores_of 420 [(1%Z, 0)] = Raise ZeroDivisionError /\
  set_weights 420 [(1%Z, 0)] 18 [] = (Raise ZeroDivisionError, []).
Proof. repeat split. Qed.

(** C3, at 1001 peers with the same score and a ceiling of 1001: every
    weight is [int(1000 / 1001) = 0], the weight map is empty, and
    [set_weights] still sends the vote, with no uid and no weight. *)
Theorem set_weights_votes_empty :
  weighted_scores_of 1001 (equal_scores 1001) = Ok [] /\
  set_weights 1001 (equal_scores 1001) 18 [] = (Ok tt, [EvVote [] [] 18]).
Proof. split; vm_compute; reflexivity. Qed.

(** ** Strings *)

Section Strings.

Local Open Scope string_scope.

Lemma sapp_assoc (a b c : string) : (a ++ b) ++ c = a ++ (b ++ c).
Proof. induction a as [|x a IH]; simpl; [reflexivity|now rewrite IH]. Qed.

Lemma sapp_nil_r (a : string) : a ++ "" = a.
Proof. induction a as [|x a IH]; simpl; [reflexivity|now rewrite IH]. Qed.

Lemma slength_app (a b : string) :
  String.length (a ++ b) = (String.length a + String.length b)%nat.
Proof. induction a as [|x a IH]; simpl; [reflexivity|now rewrite IH]. Qed.

Lemma take_drop (n : nat) (s : string) : take n s ++ drop n s = s.
Proof.
  revert s; induction n as [|n IH]; intros [|a s]; simpl; try reflexivity.
  now rewrite IH.
Qed.

Lemma take_add (j n : nat) (s : string) :
  take (j + n) s = take j s ++ take n (drop j s).
Proof.
  revert s; induction j as [|j IH]; intros s; simpl; [reflexivity|].
  destruct s as [|a s]; simpl.
  - now destruct n.
  - now rewrite IH.
Qed.

Lemma take_app (w rest : string) : take (String.length w) (w ++ rest) = w.
Proof. induction w as [|a w IH]; simpl; [now destruct rest|now rewrite IH]. Qed.

Lemma drop_app (w rest : string) : drop (String.length w) (w ++ rest) = rest.
Proof. induction w as [|a w IH]; simpl; [now destruct rest|exact IH]. Qed.

Lemma take_run (c : char_class) (k : nat) (s : string) :
  (k <= run_length c s)%nat ->
  all_in c (take k s) = true /\ String.length (take k s) = k.
Proof.
  revert s; induction k as [|k IH]; intros s Hk; simpl.
  - now destruct s.
  - destruct s as [|a s]; simpl in Hk; [lia|].
    destruct (class_mem c a) eqn:Ha; [|lia].
    destruct (IH s) as [H1 H2]; [lia|]. simpl. now rewrite Ha, H1, H2.
Qed.

Lemma run_app (c : char_class) (w rest : string) :
  all_in c w = true -> (String.length w <= run_length c (w ++ rest))%nat.
Proof.
  induction w as [|a w IH]; simpl; intros H; [lia|].
  apply andb_true_iff in H as [Ha Hw]. rewrite Ha. specialize (IH Hw). lia.
Qed.

Lemma all_in_Digit (s : string) : all_in Digit s = all_digits s.
Proof. induction s as [|a s IH]; simpl; [reflexivity|now rewrite IH]. Qed.

Lemma all_in_Lit_one (c : ascii) (s : string) :
  all_in (Lit c) s = true -> String.length s = 1%nat -> s = String c "".
Proof.
  destruct s as [|a [|b s]]; simpl; intros H Hl; try discriminate.
  rewrite andb_true_r in H. apply Ascii.eqb_eq in H. now subst.
Qed.

End Strings.

(** ** The matcher against the denotation of the pattern *)

Section Matcher.

Lemma backtrack_sound (f : nat -> option nat) (lo k n : nat) :
  backtrack f lo k = Some n ->
  exists j n', (lo <= j <= k)%nat /\ f j = Some n' /\ n = (j + n')%nat.
Proof.
  induction k as [|k IH]; simpl.
  - destruct (Nat.ltb_spec 0 lo) as [Hlo|Hlo]; [discriminate|].
    destruct (f 0%nat) as [n'|] eqn:E; [|discriminate].
    intros Hb; injection Hb as <-. exists 0%nat, n'. repeat split; auto; lia.
  - destruct (Nat.ltb_spec (S k) lo) as [Hlo|Hlo]; [discriminate|].
    destruct (f (S k)) as [n'|] eqn:E.
    + intros Hb; injection Hb as <-. exists (S k), n'.
      repeat split; auto; lia.
    + intros Hb. destruct (IH Hb) as (j & n' & Hj & Hf & Hn).
      exists j, n'. repeat split; auto; lia.
Qed.

Lemma backtrack_complete (f : nat -> option nat) (lo k j : nat) :
  (lo <= j <= k)%nat -> f j <> None -> backtrack f lo k <> None.
Proof.
  induction k as [|k IH]; simpl; intros Hj Hf.
  - assert (j = 0%nat) by lia; subst.
    destruct (Nat.ltb_spec 0 lo) as [Hlo|Hlo]; [lia|].
    destruct (f 0%nat); [discriminate|contradiction].
  - destruct (Nat.ltb_spec (S k) lo) as [Hlo|Hlo]; [lia|].
    destruct (f (S k)) eqn:E; [discriminate|].
    apply IH; [|exact Hf].
    destruct (Nat.eq_dec j (S k)) as [->|Hne]; [congruence|lia].
Qed.

Lemma match_here_sound (r : regex) :
  forall s n, match_here r s = Some n -> matches r (take n s).
Proof.
  induction r as [|a r IH]; simpl; intros s n H.
  - inversion H; subst. destruct s; constructor.
  - apply backtrack_sound in H as (j & n' & Hj & Hf & ->).
    rewrite take_add. apply IH in Hf.
    assert (Hrun : (j <= run_length (atom_class a) s)%nat).
    { destruct (atom_max a); lia. }
    destruct (take_run _ _ Hrun) as [Hall Hlen].
    constructor; auto.
    + rewrite Hlen. lia.
    + rewrite Hlen. unfold within. destruct (atom_max a); [lia|exact I].
Qed.

Lemma match_here_complete (r : regex) (w : string) :
  matches r w -> forall rest, match_here r (w ++ rest)%string <> None.
Proof.
  induction 1 as [|a r w1 w2 Hall Hmin Hmax Hm IH]; intros rest; simpl.
  - discriminate.
  - rewrite sapp_assoc.
    apply backtrack_complete with (j := String.length w1).
    + pose proof (run_app _ w1 (w2 ++ rest)%string Hall) as Hrun.
      unfold within in Hmax. destruct (atom_max a); lia.
    + rewrite drop_app. apply IH.
Qed.

Lemma re_search_sound (r : regex) (s m : string) :
  re_search r s = Some m ->
  matches r m /\ exists pre post, s = (pre ++ m ++ post)%string.
Proof.
  induction s as [|a s IH]; simpl.
  - destruct (match_here r "") as [n|] eqn:E; [|discriminate].
    intros H; inversion H; subst. split.
    + now apply match_here_sound in E.
    + exists ""%string, ""%string. now destruct n.
  - destruct (match_here r (String a s)) as [n|] eqn:E.
    + intros H; inversion H; subst. split.
      * now apply match_here_sound in E.
      * exists ""%string, (drop n (String a s)). simpl.
        now rewrite take_drop.
    + intros H. destruct (IH H) as [Hm (pre & post & ->)]. split; [exact Hm|].
      now exists (String a pre), post.
Qed.

Lemma re_search_complete (r : regex) (w : string) :
  matches r w ->
  forall pre post, re_search r (pre ++ w ++ post)%string <> None.
Proof.
  intros Hm pre post. induction pre as [|a pre IH].
  - simpl. pose proof (match_here_complete Hm post) as H.
    destruct (w ++ post)%string; simpl;
      destruct (match_here r _); congruence.
  - simpl.
    destruct (match_here r (String a (pre ++ w ++ post))); [discriminate|].
    exact IH.
Qed.

End Matcher.

(** ** Addresses *)

Section Addresses.

Local Open Scope string_scope.

Lemma split_on_lacks (c : ascii) (b : string) :
  lacks c b = true -> split_on c b = [b].
Proof.
  induction b as [|a b IH]; simpl; intros H; [reflexivity|].
  apply andb_true_iff in H as [Ha Hb]. apply negb_true_iff in Ha.
  rewrite Ha, (IH Hb). reflexivity.
Qed.

Lemma split_on_app (c : ascii) (a b : string) :
  lacks c a = true -> split_on c (a ++ String c b) = a :: split_on c b.
Proof.
  induction a as [|x a IH]; simpl; intros H.
  - now rewrite Ascii.eqb_refl.
  - apply andb_true_iff in H as [Hx Ha]. apply negb_true_iff in Hx.
    rewrite Hx, (IH Ha). reflexivity.
Qed.

Lemma lacks_app (c : ascii) (a b : string) :
  lacks c (a ++ b) = lacks c a && lacks c b.
Proof.
  induction a as [|x a IH]; simpl; [reflexivity|].
  now rewrite IH, andb_assoc.
Qed.

Lemma digits_lack_colon (s : string) :
  all_digits s = true -> lacks ":" s = true.
Proof.
  induction s as [|a s IH]; simpl; intros H; [reflexivity|].
  apply andb_true_iff in H as [Ha Hs]. rewrite (IH Hs), andb_true_r.
  apply negb_true_iff. apply Ascii.eqb_neq. intros ->. discriminate Ha.
Qed.

Lemma host_lacks_colon (h p : string) :
  host_port h p -> lacks ":" h = true /\ lacks ":" p = true.
Proof.
  intros [(o1 & o2 & o3 & o4 & [H1 _] & [H2 _] & [H3 _] & [H4 _] & ->) [Hp _]].
  split; [|now apply digits_lack_colon].
  repeat (rewrite lacks_app; simpl).
  now rewrite !digits_lack_colon.
Qed.

Lemma split_host_port (h p : string) :
  host_port h p -> split_on ":" (h ++ ":" ++ p) = [h; p].
Proof.
  intros H. apply host_lacks_colon in H as [Hh Hp]. simpl.
  now rewrite (@split_on_app ":"%char h p Hh), (@split_on_lacks ":"%char p Hp).
Qed.

Ltac next_block H w Hall Hmin Hmax :=
  let H' := fresh "Hrest" in
  inversion H as [|? ? w ? Hall Hmin Hmax H']; subst; clear H;
  simpl in Hall, Hmin, Hmax; rename H' into H.

Lemma matches_IP_REGEX (m : string) :
  matches IP_REGEX m <-> exists h p, host_port h p /\ m = h ++ ":" ++ p.
Proof.
  unfold IP_REGEX, digits, lit. split.
  - intros H.
    next_block H o1 A1 B1 C1. next_block H d1 A2 B2 C2.
    next_block H o2 A3 B3 C3. next_block H d2 A4 B4 C4.
    next_block H o3 A5 B5 C5. next_block H d3 A6 B6 C6.
    next_block H o4 A7 B7 C7. next_block H d4 A8 B8 C8.
    next_block H p A9 B9 C9. inversion H; subst; clear H.
    rewrite (@all_in_Lit_one _ d1 A2), (@all_in_Lit_one _ d2 A4),
      (@all_in_Lit_one _ d3 A6), (@all_in_Lit_one _ d4 A8) by lia.
    rewrite all_in_Digit in A1, A3, A5, A7, A9.
    exists (o1 ++ "." ++ o2 ++ "." ++ o3 ++ "." ++ o4), p. split.
    + split; [|split; [exact A9|exact B9]].
      exists o1, o2, o3, o4. unfold octet. repeat split; auto.
    + rewrite sapp_nil_r. repeat (rewrite sapp_assoc; simpl). reflexivity.
  - intros (h & p & [(o1 & o2 & o3 & o4 & [A1 B1] & [A2 B2] & [A3 B3] & [A4 B4] & ->)
                       [Ap Bp]] & ->).
    replace ((o1 ++ "." ++ o2 ++ "." ++ o3 ++ "." ++ o4) ++ ":" ++ p)
      with (o1 ++ "." ++ o2 ++ "." ++ o3 ++ "." ++ o4 ++ ":" ++ p ++ "")
      by (rewrite sapp_nil_r; repeat (rewrite sapp_assoc; simpl); reflexivity).
    rewrite <- all_in_Digit in A1, A2, A3, A4, Ap.
    assert (Hlit : forall c r w, matches r w ->
                     matches (Atom (Lit c) 1 (Some 1%nat) :: r) (String c w)).
    { intros c r w Hw. apply (@matches_cons _ r (String c "") w); simpl; auto.
      now rewrite Ascii.eqb_refl. }
    assert (Hdig : forall hi r w1 w2,
               all_in Digit w1 = true -> (1 <= String.length w1)%nat ->
               within hi (String.length w1) -> matches r w2 ->
               matches (Atom Digit 1 hi :: r) (w1 ++ w2)).
    { intros hi r w1 w2 Ha Hl Hu Hw. now apply matches_cons. }
    apply Hdig; [assumption|lia|simpl; lia|]. apply Hlit.
    apply Hdig; [assumption|lia|simpl; lia|]. apply Hlit.
    apply Hdig; [assumption|lia|simpl; lia|]. apply Hlit.
    apply Hdig; [assumption|lia|simpl; lia|]. apply Hlit.
    apply Hdig; [assumption|lia|exact I|]. apply matches_nil.
Qed.

End Addresses.

Section AddressResolver.

Local Open Scope string_scope.

Lemma extract_address_sound (s m : string) :
  extract_address s = Some m ->
  exists pre h p post,
    host_port h p /\ m = h ++ ":" ++ p /\ s = pre ++ h ++ ":" ++ p ++ post.
Proof.
  intros H. apply re_search_sound in H as [Hm (pre & post & ->)].
  apply matches_IP_REGEX in Hm as (h & p & Hhp & ->).
  exists pre, h, p, post. repeat split; try apply Hhp.
  now rewrite !sapp_assoc.
Qed.

Lemma extract_address_complete (s : string) :
  contains_host_port s -> extract_address s <> None.
Proof.
  intros (pre & h & p & post & Hhp & ->).
  replace (pre ++ h ++ ":" ++ p ++ post) with (pre ++ (h ++ ":" ++ p) ++ post)
    by now rewrite !sapp_assoc.
  apply re_search_complete. apply matches_IP_REGEX. now exists h, p.
Qed.

Lemma get_ip_port_In (d : PyDict.t string) (id : Z) (v : list pyval) :
  In (id, v) (get_ip_port d) <->
  exists addr m, In (id, addr) d /\ extract_address addr = Some m /\
                 v = map PyStr (split_on ":" m).
Proof.
  unfold get_ip_port, PyDict.items. rewrite in_flat_map. split.
  - intros ([id' x] & Hin & Hv). apply in_map_iff in Hin as ([id'' addr] & Heq & Hin).
    simpl in Heq. inversion Heq; subst; clear Heq. simpl in Hv.
    destruct (extract_address addr) as [m|] eqn:E; [|contradiction].
    destruct Hv as [Hv|[]]. inversion Hv; subst. now exists addr, m.
  - intros (addr & m & Hin & E & ->).
    exists (id, Some m). split.
    + apply in_map_iff. exists (id, addr). simpl. now rewrite E.
    + simpl. now left.
Qed.

Lemma parse_digits_ok (s : string) :
  all_digits s = true -> forall acc, exists n, parse_digits s acc = Ok n.
Proof.
  induction s as [|a s IH]; simpl; intros H acc; [now exists acc|].
  apply andb_true_iff in H as [Ha Hs]. rewrite Ha. apply IH, Hs.
Qed.

End AddressResolver.

(** ** The pairwise aggregates *)

Section Pairwise.

Variable similarity : nat -> nat -> Q.

Lemma add_at_length (l : list Q) (i : nat) (x : Q) :
  List.length (add_at l i x) = List.length l.
Proof.
  revert i; induction l as [|y l IH]; intros [|i]; simpl; auto.
Qed.

Lemma add_at_nth (l : list Q) (i k : nat) (x : Q) :
  (i < List.length l)%nat ->
  nth k (add_at l i x) 0 = if Nat.eqb k i then nth k l 0 + x else nth k l 0.
Proof.
  revert i k; induction l as [|y l IH]; intros i k Hi; simpl in Hi; [lia|].
  destruct i as [|i], k as [|k]; simpl; try reflexivity.
  apply IH. lia.
Qed.

Let inner (i : nat) (scores : list Q) (j : nat) : list Q :=
  if negb (Nat.eqb i j) then add_at scores i (similarity i j * 0.1) else scores.

Lemma inner_loop (i : nat) (js : list nat) :
  forall scores, (i < List.length scores)%nat ->
    let scores' := fold_left (inner i) js scores in
    List.length scores' = List.length scores /\
    forall k, nth k scores' 0
              = if Nat.eqb k i then accumulate similarity i js (nth k scores 0)
                else nth k scores 0.
Proof.
  induction js as [|j js IH]; intros scores Hi; simpl.
  - split; [reflexivity|]. intros k. now destruct (Nat.eqb k i).
  - assert (Hlen : List.length (inner i scores j) = List.length scores).
    { unfold inner. destruct (negb (Nat.eqb i j)); [apply add_at_length|reflexivity]. }
    destruct (IH (inner i scores j)) as [H1 H2]; [now rewrite Hlen|].
    split; [now rewrite H1|].
    intros k. rewrite H2. destruct (Nat.eqb_spec k i) as [->|Hk].
    + unfold accumulate; simpl. f_equal. unfold inner.
      destruct (negb (Nat.eqb i j)); [|reflexivity].
      rewrite add_at_nth by exact Hi. now rewrite Nat.eqb_refl.
    + unfold inner. destruct (negb (Nat.eqb i j)); [|reflexivity].
      rewrite add_at_nth by exact Hi.
      destruct (Nat.eqb_spec k i); [contradiction|reflexivity].
Qed.

Lemma outer_loop (n : nat) (ids : list nat) :
  NoDup ids ->
  forall scores, (forall i, In i ids -> (i < List.length scores)%nat) ->
    let scores' :=
      fold_left (fun scores i => fold_left (inner i) (seq 0 n) scores) ids scores in
    List.length scores' = List.length scores /\
    forall k, (In k ids ->
               nth k scores' 0 = accumulate similarity k (seq 0 n) (nth k scores 0)) /\
              (~ In k ids -> nth k scores' 0 = nth k scores 0).
Proof.
  induction 1 as [|i ids Hni Hnd IH]; intros scores Hr; simpl.
  - split; [reflexivity|]. intros k; split; [contradiction|reflexivity].
  - destruct (@inner_loop i (seq 0 n) scores) as [L1 N1]; [apply Hr; now left|].
    simpl in L1, N1.
    destruct (IH (fold_left (inner i) (seq 0 n) scores)) as [L2 N2].
    { intros i' Hi'. rewrite L1. apply Hr; now right. }
    simpl in L2, N2. split; [now rewrite L2|].
    intros k. destruct (N2 k) as [Nin Nout]. split.
    + intros [->|Hk].
      * rewrite (Nout Hni), N1. now rewrite Nat.eqb_refl.
      * rewrite (Nin Hk), N1.
        destruct (Nat.eqb_spec k i) as [->|_]; [contradiction|reflexivity].
    + intros Hk. rewrite Nout by (intros H; apply Hk; now right).
      rewrite N1. destruct (Nat.eqb_spec k i) as [->|_]; [|reflexivity].
      exfalso; apply Hk; now left.
Qed.

Lemma nth_repeat_0 (n k : nat) : nth k (repeat 0 n) 0 = 0.
Proof.
  revert k; induction n as [|n IH]; intros [|k]; simpl; auto.
Qed.

Lemma pairwise_scores_loops (n : nat) :
  pairwise_scores similarity n
  = fold_left (fun scores i => fold_left (inner i) (seq 0 n) scores)
      (seq 0 n) (repeat 0 n).
Proof. reflexivity. Qed.

Lemma pairwise_scores_length (n : nat) :
  List.length (pairwise_scores similarity n) = n.
Proof.
  destruct (@outer_loop n (seq 0 n) (seq_NoDup n 0) (repeat 0 n)) as [L _].
  - intros i Hi. apply in_seq in Hi. rewrite repeat_length. lia.
  - rewrite pairwise_scores_loops. simpl in L. rewrite L.
    apply repeat_length.
Qed.

Lemma pairwise_scores_nth (n k : nat) :
  nth k (pairwise_scores similarity n) 0
  = if (k <? n)%nat then accumulate similarity k (seq 0 n) 0 else 0.
Proof.
  destruct (@outer_loop n (seq 0 n) (seq_NoDup n 0) (repeat 0 n)) as [_ N].
  - intros i Hi. apply in_seq in Hi. rewrite repeat_length. lia.
  - rewrite pairwise_scores_loops. simpl in N.
    destruct (N k) as [Nin Nout]. destruct (Nat.ltb_spec k n) as [Hk|Hk].
    + rewrite Nin by (apply in_seq; lia). now rewrite nth_repeat_0.
    + rewrite Nout by (rewrite in_seq; lia). apply nth_repeat_0.
Qed.

Lemma accumulate_Qsum (i : nat) (js : list nat) (start : Q) :
  accumulate similarity i js start
  == start + Qsum (map (fun j => similarity i j * 0.1)
                       (filter (fun j => negb (Nat.eqb j i)) js)).
Proof.
  unfold accumulate. revert start.
  induction js as [|j js IH]; intros start; simpl; [ring|].
  rewrite IH. rewrite (Nat.eqb_sym j i).
  destruct (Nat.eqb i j); simpl; ring.
Qed.

Lemma accumulate_aggregate (n i : nat) :
  accumulate similarity i (seq 0 n) 0 == aggregate similarity n i.
Proof. rewrite accumulate_Qsum. unfold aggregate. ring. Qed.

End Pairwise.

(** ** The scoring loop *)

Section ScoreLoop.

Lemma index_ok {A : Type} (l : list A) (i : nat) (d : A) :
  (i < List.length l)%nat -> index l i = Ok (nth i l d).
Proof.
  intros Hi. unfold index.
  destruct (nth_error l i) as [x|] eqn:E.
  - now rewrite (nth_error_nth _ _ d E).
  - apply nth_error_None in E. lia.
Qed.

Lemma py_max_Qmax (a b : Q) : py_max a b == Qmax a b.
Proof.
  unfold py_max. destruct (Qle_bool b a) eqn:E.
  - apply Qle_bool_iff in E. symmetry. now apply Q.max_l.
  - assert (H : a <= b).
    { apply Qlt_le_weak, Qnot_le_lt. intros H. apply Qle_bool_iff in H.
      congruence. }
    symmetry. now apply Q.max_r.
Qed.

Lemma py_max_ge_1 (t : Q) : 1 <= py_max t 1.
Proof. rewrite py_max_Qmax. apply Q.le_max_r. Qed.

Lemma py_div_by_time (t : Q) :
  py_div 1 (py_max t 1) = Ok (1 / py_max t 1).
Proof.
  apply py_div_ok. intros E. pose proof (py_max_ge_1 t) as H.
  rewrite E in H. exact (H eq_refl).
Qed.



Variables jaro_winkler_scores dice_scores ratcliff_obershelp_scores : list Q.
Variable miner_uids : list Z.

Let score_entry (jt : nat * Q) : Z * Q :=
  (nth (fst jt) miner_uids 0%Z,
   raw_score jaro_winkler_scores dice_scores ratcliff_obershelp_scores
     (fst jt) (snd jt)).

Lemma score_loop_ok (miner_time : list Q) :
  forall i score_dict,
    let m := (i + List.length miner_time)%nat in
    (m <= List.length jaro_winkler_scores)%nat ->
    (m <= List.length dice_scores)%nat ->
    (m <= List.length ratcliff_obershelp_scores)%nat ->
    (m <= List.length miner_uids)%nat ->
    NoDup (PyDict.keys score_dict
           ++ map (fun j => nth j miner_uids 0%Z)
                  (seq i (List.length miner_time))) ->
    score_loop jaro_winkler_scores dice_scores ratcliff_obershelp_scores
      miner_uids i miner_time score_dict
    = Ok (score_dict
          ++ map score_entry (combine (seq i (List.length miner_time)) miner_time)).
Proof.
  induction miner_time as [|t rest IH]; intros i score_dict m H1 H2 H3 H4 Hnd;
    subst m; simpl in *.
  - now rewrite app_nil_r.
  - rewrite (@index_ok _ jaro_winkler_scores i 0) by lia.
    rewrite (@index_ok _ dice_scores i 0) by lia.
    rewrite (@index_ok _ ratcliff_obershelp_scores i 0) by lia.
    rewrite py_div_by_time.
    rewrite (@index_ok _ miner_uids i 0%Z) by lia. simpl.
    rewrite PyDictFacts.set_fresh.
    + rewrite IH; try lia.
      * rewrite <- app_assoc. reflexivity.
      * unfold PyDict.keys in *. rewrite map_app, <- app_assoc. exact Hnd.
    + apply NoDup_remove_2 in Hnd. intros Hin; apply Hnd.
      apply in_or_app; now left.
Qed.

Lemma score_entries_keys (miner_time : list Q) (i : nat) :
  PyDict.keys (map score_entry (combine (seq i (List.length miner_time)) miner_time))
  = map (fun j => nth j miner_uids 0%Z) (seq i (List.length miner_time)).
Proof.
  revert i; induction miner_time as [|t rest IH]; intros i; simpl; [reflexivity|].
  f_equal. apply IH.
Qed.

Lemma In_combine_seq (miner_time : list Q) (a i : nat) :
  (i < List.length miner_time)%nat ->
  In ((a + i)%nat, nth i miner_time 0)
     (combine (seq a (List.length miner_time)) miner_time).
Proof.
  revert a i; induction miner_time as [|t rest IH]; intros a i Hi; simpl in *; [lia|].
  destruct i as [|i].
  - left. f_equal. lia.
  - right. replace (a + S i)%nat with (S a + i)%nat by lia. apply IH. lia.
Qed.

End ScoreLoop.

(** ** The vectorizer *)

Section Vectorizer.

Lemma insert_term_not_nil (t : string) (v : list string) : insert_term t v <> [].
Proof.
  destruct v as [|u v]; simpl; [discriminate|].
  destruct (String.compare t u); discriminate.
Qed.

Lemma vocabulary_not_nil (docs : list (list string)) :
  List.concat docs <> [] -> vocabulary docs <> [].
Proof.
  unfold vocabulary.
  assert (H : forall l v, v <> [] ->
             fold_left (fun v t => insert_term t v) l v <> []).
  { induction l as [|t l IH]; intros v Hv; simpl; [exact Hv|].
    apply IH, insert_term_not_nil. }
  destruct (List.concat docs) as [|t l]; [congruence|]. intros _. simpl.
  apply H. discriminate.
Qed.

Lemma fit_transform_ok (raw_documents : list string) :
  (exists doc, In doc raw_documents /\ analyze doc <> []) ->
  exists X, fit_transform raw_documents = Ok X.
Proof.
  intros (doc & Hin & Hdoc). unfold fit_transform.
  assert (Hv : vocabulary (map analyze raw_documents) <> []).
  { apply vocabulary_not_nil. intros E.
    apply Hdoc. apply (in_map analyze) in Hin.
    destruct (analyze doc) as [|b bs]; [reflexivity|].
    exfalso. assert (Hb : In b (List.concat (map analyze raw_documents))).
    { apply in_concat. eexists; split; [exact Hin|now left]. }
    rewrite E in Hb. exact Hb. }
  destruct (vocabulary (map analyze raw_documents)); [congruence|eauto].
Qed.

End Vectorizer.

(** ** [_score_miner] *)

Section ScoreMiner.

Variable jaro_winkler_similarity : string -> string -> Q.
Variable dice : list Z -> list Z -> Q.
Variable ratio : string -> string -> Q.

Lemma map_nth_seq (l : list Z) :
  map (fun j => nth j l 0%Z) (seq 0 (List.length l)) = l.
Proof.
  apply (nth_ext _ _ 0%Z 0%Z).
  - now rewrite length_map, length_seq.
  - intros k Hk. rewrite length_map, length_seq in Hk.
    rewrite (nth_indep _ 0%Z (nth 0 l 0%Z)) by now rewrite length_map, length_seq.
    rewrite (map_nth (fun j => nth j l 0%Z) (seq 0 (List.length l)) 0%nat k).
    now rewrite seq_nth.
Qed.

(** C5, on the empty input: the vectorizer finds no bigram and raises
    [ValueError], so [_score_miner] raises instead of returning an empty
    map; a round in which both miners fail to answer ends with that
    exception and never reaches the test of the empty score map. *)
Theorem score_miner_empty_raises :
  _score_miner jaro_winkler_similarity dice ratio [] [] [] = Raise ValueError /\
  fst (validate_step jaro_winkler_similarity dice ratio 18
         (two_miner_world "5Validator" (Raises TimeoutError)
            (Raises ConnectionError))
         18 420 [])
  = Raise ValueError.
Proof. split; reflexivity. Qed.

(** The formula of the scorer.  When the answers, uids and latencies are [n]
    each, the uids are distinct and some answer holds a character bigram (so
    that the vectorizer has a vocabulary), [_score_miner] returns a map over
    exactly the uids, and the score of peer [i] is the average of its three
    aggregates times 0.8 plus [1 / max(latency_i, 1)] times 0.2; each
    aggregate is the sum over [j <> i] of the measure's similarity of the
    answers [i] and [j], scaled by 0.1. *)
Theorem score_miner_formula (miner_res : list string) (miner_uids : list Z)
    (miner_time : list Q) :
  let n := List.length miner_res in
  List.length miner_uids = n ->
  List.length miner_time = n ->
  NoDup miner_uids ->
  (exists doc, In doc miner_res /\ analyze doc <> []) ->
  exists X score_dict,
    fit_transform miner_res = Ok X /\
    _score_miner jaro_winkler_similarity dice ratio
      miner_res miner_uids miner_time = Ok score_dict /\
    PyDict.keys score_dict = miner_uids /\
    forall i, (i < n)%nat ->
      exists score,
        PyDict.get score_dict (nth i miner_uids 0%Z) = Some score /\
        score ==
          (aggregate (fun i j => jaro_winkler_similarity
                                   (text_at miner_res i) (text_at miner_res j)) n i
           + aggregate (fun i j => 1 - dice (nth i X []) (nth j X [])) n i
           + aggregate (fun i j => ratio (text_at miner_res i)
                                     (text_at miner_res j)) n i) / 3 * 0.8
          + 1 / Qmax (nth i miner_time 0) 1 * 0.2.
Proof.
  intros n Hu Ht Hnd Hdoc.
  destruct (@fit_transform_ok miner_res Hdoc) as [X HX].
  set (jw := calculate_jaro_winkler_scores jaro_winkler_similarity miner_res).
  set (dc := pairwise_scores (fun i j => 1 - dice (nth i X []) (nth j X [])) n).
  set (ro := calculate_ratcliff_obershelp_scores ratio miner_res).
  assert (Hrun : _score_miner jaro_winkler_similarity dice ratio
                   miner_res miner_uids miner_time
                 = score_loop jw dc ro miner_uids 0 miner_time []).
  { unfold _score_miner, calculate_dice_similarity_scores. rewrite HX.
    reflexivity. }
  assert (Hlen : List.length jw = n /\ List.length dc = n /\ List.length ro = n).
  { repeat split; apply pairwise_scores_length. }
  destruct Hlen as (L1 & L2 & L3).
  assert (Hseq : map (fun j => nth j miner_uids 0%Z)
                     (seq 0 (List.length miner_time)) = miner_uids).
  { rewrite Ht, <- Hu. apply map_nth_seq. }
  rewrite Hrun, score_loop_ok; simpl; try lia;
    [|rewrite Hseq; exact Hnd].
  eexists X, _. split; [exact HX|]. split; [reflexivity|].
  assert (Hkeys : PyDict.keys
                    (map (fun jt : nat * Q =>
                            (nth (fst jt) miner_uids 0%Z,
                             raw_score jw dc ro (fst jt) (snd jt)))
                         (combine (seq 0 (List.length miner_time)) miner_time))
                  = miner_uids).
  { rewrite score_entries_keys. exact Hseq. }
  split; [exact Hkeys|].
  intros i Hi. exists (raw_score jw dc ro i (nth i miner_time 0)). split.
  - apply PyDictFacts.get_In.
    + unfold PyDict.wf. rewrite Hkeys. exact Hnd.
    + apply in_map_iff. exists (i, nth i miner_time 0). split; [reflexivity|].
      apply (@In_combine_seq miner_time 0 i). lia.
  - unfold raw_score. subst jw dc ro.
    unfold calculate_jaro_winkler_scores, calculate_ratcliff_obershelp_scores.
    fold n. rewrite !pairwise_scores_nth.
    apply Nat.ltb_lt in Hi. rewrite Hi.
    rewrite !accumulate_aggregate, py_max_Qmax. reflexivity.
Qed.

End ScoreMiner.

Lemma score_miner_formula_witness :
  let miner_res := ["hello"; "help"]%string in
  let miner_uids := [5%Z; 6%Z] in
  let miner_time := [2; 1 # 2] in
  List.length miner_uids = List.length miner_res /\
  List.length miner_time = List.length miner_res /\
  NoDup miner_uids /\
  (exists doc, In doc miner_res /\ analyze doc <> []) /\
  exists X score_dict,
    fit_transform miner_res = Ok X /\
    _score_miner (const_measure 1) (const_measure (1 # 2)) (const_measure 1)
      miner_res miner_uids miner_time = Ok score_dict /\
    PyDict.keys score_dict = miner_uids.
Proof.
  assert (Hnd : NoDup [5%Z; 6%Z]).
  { repeat (constructor; [simpl; intuition discriminate|]). constructor. }
  assert (Hdoc : exists doc, In doc ["hello"; "help"]%string /\ analyze doc <> []).
  { exists "hello"%string. split; [now left|discriminate]. }
  split; [reflexivity|]. split; [reflexivity|]. split; [exact Hnd|].
  split; [exact Hdoc|].
  destruct (@score_miner_formula (const_measure 1) (const_measure (1 # 2))
              (const_measure 1) ["hello"; "help"]%string [5%Z; 6%Z] [2; 1 # 2]
              eq_refl eq_refl Hnd Hdoc)
    as (X & score_dict & HX & Hs & Hk & _).
  exists X, score_dict. split; [exact HX|]. split; [exact Hs|exact Hk].
Defined.

(** C6, at a single answer of one character.  The input is not empty, and
    the two measures on strings give its one peer the aggregate 0; but the
    vectorizer finds no bigram in it and raises, so that [_score_miner]
    raises [ValueError] and assigns no score, whatever the measures are. *)
Theorem score_miner_one_character
    (jaro_winkler_similarity : string -> string -> Q)
    (dice : list Z -> list Z -> Q) (ratio : string -> string -> Q) :
  List.length ["a"%string] = 1%nat /\
  calculate_jaro_winkler_scores jaro_winkler_similarity ["a"%string] = [0] /\
  calculate_ratcliff_obershelp_scores ratio ["a"%string] = [0] /\
  fit_transform ["a"%string] = Raise ValueError /\
  calculate_dice_similarity_scores dice ["a"%string] = Raise ValueError /\
  _score_miner jaro_winkler_similarity dice ratio ["a"%string] [7%Z] [2]
  = Raise ValueError.
Proof. repeat split. Qed.

(** ** Kept scores *)



(** ** Answers without a bigram *)

Section EmptyRows.

Lemma row_sum_acc (f : Z -> Z -> Z) (l : list (Z * Z)) (acc : Z) :
  fold_left (fun acc uv => (acc + f (fst uv) (snd uv))%Z) l acc
  = (acc + fold_left (fun acc uv => (acc + f (fst uv) (snd uv))%Z) l 0)%Z.
Proof.
  revert acc; induction l as [|uv l IH]; intros acc; simpl; [lia|].
  rewrite (IH (acc + f (fst uv) (snd uv))%Z), (IH (f (fst uv) (snd uv))).
  symmetry. apply Z.add_assoc.
Qed.

Lemma row_sum_cons (f : Z -> Z -> Z) (a b : Z) (u v : list Z) :
  row_sum f (a :: u) (b :: v) = (f a b + row_sum f u v)%Z.
Proof. unfold row_sum. simpl. now rewrite row_sum_acc. Qed.

Lemma row_sum_nil_l (f : Z -> Z -> Z) (v : list Z) : row_sum f [] v = 0%Z.
Proof. reflexivity. Qed.

Lemma row_sum_nil_r (f : Z -> Z -> Z) (u : list Z) : row_sum f u [] = 0%Z.
Proof. now destruct u. Qed.




Lemma row_sum_nonneg (f : Z -> Z -> Z) (u v : list Z) :
  (forall a b, (0 <= a)%Z -> (0 <= b)%Z -> (0 <= f a b)%Z) ->
  Forall (fun x => (0 <= x)%Z) u -> Forall (fun x => (0 <= x)%Z) v ->
  (0 <= row_sum f u v)%Z.
Proof.
  intros Hf Hu. revert v. induction Hu as [|a u Ha Hu IH]; intros v Hv.
  - rewrite row_sum_nil_l. lia.
  - destruct Hv as [|b v Hb Hv]; [rewrite row_sum_nil_r; lia|].
    rewrite row_sum_cons. specialize (IH v Hv). specialize (Hf a b Ha Hb). lia.
Qed.

Lemma row_sum_dice (u v : list Z) :
  (row_sum (fun a b => a * (1 - b)) u v + row_sum (fun a b => (1 - a) * b) u v
   + 2 * row_sum (fun a b => a * b) u v
   = row_sum (fun a b => a + b) u v)%Z.
Proof.
  revert v; induction u as [|a u IH]; intros v.
  - rewrite !row_sum_nil_l. reflexivity.
  - destruct v as [|b v]; [rewrite !row_sum_nil_r; reflexivity|].
    rewrite !row_sum_cons. specialize (IH v). lia.
Qed.

Lemma row_sum_mul_zero (u v : list Z) :
  Forall (fun x => (0 <= x)%Z) u -> Forall (fun x => (0 <= x)%Z) v ->
  row_sum (fun a b => a + b)%Z u v = 0%Z ->
  row_sum (fun a b => a * b)%Z u v = 0%Z.
Proof.
  intros Hu. revert v. induction Hu as [|a u Ha Hu IH]; intros v Hv.
  - now rewrite !row_sum_nil_l.
  - destruct Hv as [|b v Hb Hv]; [now rewrite !row_sum_nil_r|].
    rewrite !row_sum_cons. intros E.
    pose proof (@row_sum_nonneg (fun a b => a + b)%Z u v) as Hs.
    assert (H0 : (0 <= row_sum (fun a b => a + b)%Z u v)%Z).
    { apply Hs; auto. intros; lia. }
    rewrite IH; [nia|exact Hv|lia].
Qed.

(** On rows of counts the Dice distance is never an infinity, and when it
    is a number the similarity [1 - dice] is not negative. *)
Lemma scipy_dice_counts (u v : list Z) :
  Forall (fun x => (0 <= x)%Z) u -> Forall (fun x => (0 <= x)%Z) v ->
  match scipy_dice u v with
  | Finite d => 0 <= 1 - d
  | Infinity _ => False
  | NaN => True
  end.
Proof.
  intros Hu Hv. unfold scipy_dice, np_true_divide.
  pose proof (row_sum_dice u v) as E.
  assert (Htt : (0 <= row_sum (fun a b => a * b) u v)%Z).
  { apply row_sum_nonneg; auto. intros; lia. }
  assert (Hs : (0 <= row_sum (fun a b => a + b) u v)%Z).
  { apply row_sum_nonneg; auto. intros; lia. }
  pose proof (@row_sum_mul_zero u v Hu Hv) as Hz.
  set (ntt := row_sum (fun a b => a * b)%Z u v) in *.
  set (nft := row_sum (fun a b => (1 - a) * b)%Z u v) in *.
  set (ntf := row_sum (fun a b => a * (1 - b))%Z u v) in *.
  destruct (Z.eqb_spec (2 * ntt + ntf + nft) 0) as [E0|E0].
  - destruct (Z.eqb_spec (ntf + nft) 0) as [E1|E1]; [exact I|]. lia.
  - assert (Hden : (0 < 2 * ntt + ntf + nft)%Z) by lia.
    assert (Hq : 0 < inject_Z (2 * ntt + ntf + nft)).
    { change 0 with (inject_Z 0). now rewrite <- Zlt_Qlt. }
    assert (Hle : inject_Z (ntf + nft) / inject_Z (2 * ntt + ntf + nft) <= 1).
    { apply Qle_shift_div_r; [exact Hq|]. rewrite Qmult_1_l.
      rewrite <- Zle_Qle. lia. }
    unfold Qminus. rewrite <- (Qplus_opp_r (inject_Z (ntf + nft) / inject_Z (2 * ntt + ntf + nft))).
    apply Qplus_le_compat; [exact Hle|apply Qle_refl].
Qed.

Lemma fit_transform_counts (miner_res : list string) (X : list (list Z))
    (i : nat) :
  fit_transform miner_res = Ok X ->
  Forall (fun x => (0 <= x)%Z) (nth i X []).
Proof.
  unfold fit_transform. intros HX.
  destruct (vocabulary (map analyze miner_res)) as [|t vocab]; [discriminate|].
  injection HX as <-.
  destruct (Nat.lt_ge_cases i (List.length (map analyze miner_res))) as [Hlt|Hge].
  - rewrite (nth_indep _ []
               (map (fun t0 => Z.of_nat (count_occ string_dec [] t0)) (t :: vocab)))
      by now rewrite length_map.
    rewrite (map_nth (fun doc => map (fun t0 => Z.of_nat (count_occ string_dec doc t0))
                                   (t :: vocab))).
    apply Forall_forall. intros x Hx.
    apply in_map_iff in Hx as (t0 & <- & _). lia.
  - rewrite nth_overflow by now rewrite length_map. constructor.
Qed.

(** So the similarity [calculate_dice_similarity_scores] adds for a pair of
    answers is a number that is not negative, or it is not a number. *)
Lemma dice_similarity_of_answers (miner_res : list string) (X : list (list Z))
    (i j : nat) :
  fit_transform miner_res = Ok X ->
  match scipy_dice (nth i X []) (nth j X []) with
  | Finite d => 0 <= 1 - d
  | Infinity _ => False
  | NaN => True
  end.
Proof.
  intros HX. apply scipy_dice_counts; eapply fit_transform_counts; exact HX.
Qed.

End EmptyRows.



(** ** Polling and the round *)

Section Round.

Variable jaro_winkler_similarity : string -> string -> Q.
Variable dice : list Z -> list Z -> Q.
Variable ratio : string -> string -> Q.
Variable self_netuid : Z.
Variable w : world.

(** An exception raised by the call itself is caught: the peer's result is
    [None] and the failure is logged. *)
Lemma get_miner_prediction_call_raises (question : string)
    (module_ip module_port : pyval) (miner_key : string) (port : Z) (e : exn)
    (tr : trace) :
  py_int_of module_port = Ok port ->
  module_call w module_ip port miner_key question = Raises e ->
  is_Exception e = true ->
  _get_miner_prediction self_netuid w question
    ([module_ip; module_port], miner_key) tr
  = (Ok PNone,
     tr ++ [EvLog (LogPollStart (get_uids w miner_key self_netuid));
            EvCall module_ip port miner_key;
            EvLog (LogPollFailed (get_uids w miner_key self_netuid) e)]).
Proof.
  intros Hp Hc He. unfold _get_miner_prediction, bind, lift, log, emit,
    try_except, raise, ret. rewrite Hp, Hc. simpl. rewrite He.
  now rewrite <- !app_assoc.
Qed.

(** A payload without an ["answer"] entry, or whose answer is not a
    dictionary, is caught in the same way. *)
Lemma get_miner_prediction_malformed (question : string)
    (module_ip module_port : pyval) (miner_key : string) (port : Z)
    (payload : pyobj) (elapsed : Q) (e : exn) (tr : trace) :
  py_int_of module_port = Ok port ->
  module_call w module_ip port miner_key question = Returns payload elapsed ->
  (miner_answer <- subscript payload "answer" ;;
   set_item miner_answer "response_time" (PNum elapsed))%result = Raise e ->
  _get_miner_prediction self_netuid w question
    ([module_ip; module_port], miner_key) tr
  = (Ok PNone,
     tr ++ [EvLog (LogPollStart (get_uids w miner_key self_netuid));
            EvCall module_ip port miner_key;
            EvLog (LogPollFailed (get_uids w miner_key self_netuid) e)]).
Proof.
  intros Hp Hc He. unfold _get_miner_prediction, bind, lift, log, emit,
    try_except, raise, ret. rewrite Hp, Hc. simpl.
  assert (Hexc : is_Exception e = true).
  { unfold subscript, set_item in He.
    destruct payload as [| | |fields]; simpl in He;
      try (inversion He; reflexivity).
    destruct (field_get fields "answer") as [[| | |ans]|]; simpl in He;
      inversion He; reflexivity. }
  destruct (subscript payload "answer") as [ans|e1]; simpl in He |- *.
  - rewrite He. simpl. rewrite Hexc. now rewrite <- !app_assoc.
  - inversion He; subst. rewrite Hexc. now rewrite <- !app_assoc.
Qed.

(** C9.  When the validator's key is not among the keys registered in the
    target subnet, [validate_step] raises [RuntimeError]; the trace is
    unchanged: no peer was called, nothing was logged and no vote was sent. *)
Theorem validate_step_unregistered (syntia_netuid max_allowed_weights : Z)
    (tr : trace) :
  ~ In (ss58_address w) (PyDict.values (query_map_key w syntia_netuid)) ->
  validate_step jaro_winkler_similarity dice ratio self_netuid w
    syntia_netuid max_allowed_weights tr
  = (Raise RuntimeError, tr).
Proof.
  intros Hnot. unfold validate_step.
  destruct (existsb (String.eqb (ss58_address w))
              (PyDict.values (query_map_key w syntia_netuid))) eqn:E.
  - exfalso. apply existsb_exists in E as (x & Hin & Heq).
    apply String.eqb_eq in Heq. subst x. now apply Hnot.
  - reflexivity.
Qed.

End Round.

Lemma validate_step_unregistered_witness :
  let w := two_miner_world "5Stranger" (Returns (answer_with "hello") 2)
             (Returns (answer_with "help") 3) in
  ~ In (ss58_address w) (PyDict.values (query_map_key w 18)) /\
  validate_step (const_measure 1) (const_measure (1 # 2)) (const_measure 1)
    18 w 18 420 []
  = (Raise RuntimeError, []).
Proof.
  assert (H : ~ In "5Stranger"%string
                ["5Validator"; "5MinerA"; "5MinerB"]%string).
  { simpl. intuition discriminate. }
  split; [exact H|].
  exact (@validate_step_unregistered (const_measure 1) (const_measure (1 # 2))
           (const_measure 1) 18
           (two_miner_world "5Stranger" (Returns (answer_with "hello") 2)
              (Returns (answer_with "help") 3))
           18 420 [] H).
Defined.

(** C7, at a round of two miners: miner 1 answers well and miner 2 returns
    [{"answer": {"text": "hi"}}], an answer without the ["response"] field.
    The call of miner 2 is logged as a success, its result is not [None], and
    reading ["response"] raises [KeyError] out of [validate_step]: no vote is
    sent, although miner 1 answered.  When miner 2 times out instead, the
    round goes on and votes for miner 1. *)
Theorem validate_step_malformed_answer :
  let round (outcome2 : call_outcome) :=
    validate_step (const_measure 1) (const_measure (1 # 2)) (const_measure 1)
      18 (two_miner_world "5Validator" (Returns (answer_with "hello") 2) outcome2)
      18 420 [] in
  round (Returns answer_without_response 3)
  = (Raise KeyError,
     [EvLog (LogSelected [1%Z; 2%Z]);
      EvLog (LogPollStart 1); EvCall (PyStr "10.0.0.5") 9000 "5MinerA";
      EvLog (LogPollOk 1);
      EvLog (LogPollStart 2); EvCall (PyStr "10.0.0.6") 9000 "5MinerB";
      EvLog (LogPollOk 2)]) /\
  fst (round (Raises TimeoutError)) = Ok tt /\
  In (EvVote [1%Z] [1000%Z] 18) (snd (round (Raises TimeoutError))).
Proof.
  repeat split.
  vm_compute. do 8 right. now left.
Qed.

(** A round whose weight map comes out empty (here through a ceiling of 0)
    still reaches the ledger: [validate_step] tests the score map only, and
    [set_weights] votes with no uid and no weight. *)
Lemma validate_step_votes_with_empty_weights :
  let round :=
    validate_step (const_measure 1) (const_measure (1 # 2)) (const_measure 1)
      18 (two_miner_world "5Validator" (Returns (answer_with "hello") 2)
            (Returns (answer_with "help") 3))
      18 0 [] in
  fst round = Ok tt /\ In (EvVote [] [] 18) (snd round).
Proof.
  split; [reflexivity|]. vm_compute. do 7 right. now left.
Qed.

(** * Further properties of the code *)

(** ** [get_subnet_netuid] *)

(** X1.  [get_subnet_netuid] returns a netuid exactly when that netuid is
    registered under the name asked for and no entry before it in the map's
    iteration order carries the same name: of several subnets with one name
    the first is returned. *)
Theorem get_subnet_netuid_first (subnets : PyDict.t string)
    (subnet_name : string) (netuid : Z) :
  get_subnet_netuid subnets subnet_name = Ok netuid <->
  exists earlier later,
    subnets = earlier ++ (netuid, subnet_name) :: later /\
    ~ In subnet_name (PyDict.values earlier).
Proof.
  unfold get_subnet_netuid, PyDict.items, PyDict.values.
  induction subnets as [|[n name] rest IH]; simpl.
  - split; [discriminate|]. intros (l1 & l2 & E & _). now destruct l1.
  - destruct (String.eqb_spec name subnet_name) as [->|Hne].
    + split.
      * intros H; injection H as <-. now exists [], rest.
      * intros (l1 & l2 & E & Hn). destruct l1 as [|[n' name'] l1]; simpl in E.
        -- now injection E as -> _.
        -- injection E as -> -> _. exfalso. apply Hn. now left.
    + rewrite IH. split.
      * intros (l1 & l2 & -> & Hn). exists ((n, name) :: l1), l2.
        split; [reflexivity|]. simpl. intros [H|H]; [congruence|contradiction].
      * intros (l1 & l2 & E & Hn). destruct l1 as [|[n' name'] l1]; simpl in E.
        -- injection E as _ E' _. congruence.
        -- injection E as _ _ ->. exists l1, l2. split; [reflexivity|].
           intros H; apply Hn; now right.
Qed.

(** X2.  [get_subnet_netuid] raises exactly when no subnet carries the name,
    and what it raises is [ValueError]. *)
Theorem get_subnet_netuid_not_found (subnets : PyDict.t string)
    (subnet_name : string) (e : exn) :
  get_subnet_netuid subnets subnet_name = Raise e <->
  e = ValueError /\ ~ In subnet_name (PyDict.values subnets).
Proof.
  unfold get_subnet_netuid, PyDict.items, PyDict.values.
  induction subnets as [|[n name] rest IH]; simpl.
  - split; [intros H; injection H as <-; now split|now intros [-> _]].
  - destruct (String.eqb_spec name subnet_name) as [->|Hne].
    + split; [discriminate|]. intros [_ H]. exfalso; apply H; now left.
    + rewrite IH. split; intros [-> H]; (split; [reflexivity|]).
      * intros [E|E]; [congruence|contradiction].
      * intros E; apply H; now right.
Qed.

(** ** [get_miner_prompt] *)

Lemma prompt_loop_nth (documents : list string) (random_number i : Z) :
  (i <= random_number)%Z ->
  prompt_loop i documents random_number
  = nth_error documents (Z.to_nat (random_number - i + 1)).
Proof.
  revert i; induction documents as [|d rest IH]; intros i Hi; simpl.
  - now destruct (Z.to_nat (random_number - i + 1)).
  - destruct (Z.ltb_spec random_number i) as [Hlt|Hge]; [lia|].
    replace (Z.to_nat (random_number - i + 1))
      with (S (Z.to_nat (random_number - i))) by lia.
    simpl. destruct (Z.eq_dec i random_number) as [->|Hne].
    + rewrite Z.sub_diag. simpl. destruct rest as [|d' rest']; simpl; [reflexivity|].
      destruct (Z.ltb_spec random_number (random_number + 1)); [reflexivity|lia].
    + rewrite IH by lia. f_equal. lia.
Qed.

(** X3.  For a draw [random_number >= 0], [get_miner_prompt] returns the text
    of the document at index [random_number + 1], and [None] when the reader
    yields no such document: the first document is never the prompt, and with
    100 documents the draw 99 gives no prompt at all. *)
Theorem draw_miner_prompt_next (documents : list string) (random_number : Z) :
  (0 <= random_number)%Z ->
  draw_miner_prompt documents random_number
    = nth_error documents (S (Z.to_nat random_number)) /\
  (draw_miner_prompt documents random_number = None <->
   (Z.of_nat (List.length documents) <= random_number + 1)%Z) /\
  (List.length documents = 100%nat -> random_number = 99%Z ->
   draw_miner_prompt documents random_number = None).
Proof.
  intros Hr. unfold draw_miner_prompt.
  assert (E : prompt_loop 0 documents random_number
              = nth_error documents (S (Z.to_nat random_number))).
  { rewrite prompt_loop_nth by exact Hr. f_equal. lia. }
  split; [exact E|]. rewrite E. split.
  - rewrite nth_error_None. lia.
  - intros Hl ->. apply nth_error_None. rewrite Hl. simpl. lia.
Qed.

Lemma draw_miner_prompt_next_witness :
  (0 <= 1)%Z /\
  draw_miner_prompt ["zero"; "one"; "two"; "three"]%string 1 = Some "two"%string.
Proof.
  assert (H : (0 <= 1)%Z) by (intro E; discriminate E).
  split; [exact H|].
  destruct (@draw_miner_prompt_next ["zero"; "one"; "two"; "three"]%string 1 H)
    as [E _].
  rewrite E. reflexivity.
Defined.

(** ** More on the weights of [set_weights] *)

Section MoreWeights.

Lemma weigh_Ok_inv (scores : Q) (its : list (Z * Q)) :
  forall acc ws,
    NoDup (PyDict.keys acc ++ PyDict.keys its) ->
    weigh its scores acc = Ok ws ->
    ws = acc ++ map (weight_entry scores) its.
Proof.
  induction its as [|[uid score] its IH]; simpl; intros acc ws Hnd H.
  - injection H as <-. now rewrite app_nil_r.
  - unfold py_div in H. destruct (Qeq_bool scores 0); simpl in H; [discriminate|].
    rewrite PyDictFacts.set_fresh in H.
    + apply IH in H.
      * rewrite H, <- app_assoc. reflexivity.
      * unfold PyDict.keys in *. rewrite map_app, <- app_assoc. exact Hnd.
    + apply NoDup_remove_2 in Hnd. intros Hin; apply Hnd.
      apply in_or_app; now left.
Qed.

Lemma kept_prefix (score_dict : PyDict.t Q) (k : Z) :
  PyDict.wf score_dict ->
  exists n, cut_to_max_allowed_weights score_dict k
            = firstn n (sorted_desc score_dict) /\
            ((0 <= k)%Z -> n = Z.to_nat k) /\
            ((k < 0)%Z -> n = Z.to_nat (Z.of_nat (List.length score_dict) + k)).
Proof.
  intros Hwf. rewrite (cut_to_max_allowed_weights_prefix _ Hwf).
  unfold slice_to. destruct (Z.leb_spec 0 k).
  - eexists. split; [reflexivity|]. split; [reflexivity|lia].
  - eexists. split; [reflexivity|]. split; [lia|].
    intros _. now rewrite sorted_desc_length.
Qed.

Lemma kept_wf (score_dict : PyDict.t Q) (k : Z) :
  PyDict.wf score_dict -> PyDict.wf (cut_to_max_allowed_weights score_dict k).
Proof.
  intros Hwf. destruct (kept_prefix k Hwf) as (n & -> & _).
  apply NoDup_keys_firstn. now apply sorted_desc_wf.
Qed.

(** What [set_weights] hands on, when it gets that far. *)
Lemma weighted_scores_of_entries (score_dict : PyDict.t Q) (k : Z)
    (wm : PyDict.t Z) :
  PyDict.wf score_dict ->
  weighted_scores_of k score_dict = Ok wm ->
  let kept := cut_to_max_allowed_weights score_dict k in
  wm = filter (fun kv => negb (snd kv =? 0)%Z)
         (map (weight_entry (py_sum (PyDict.values kept))) kept).
Proof.
  intros Hwf H kept. unfold weighted_scores_of in H. fold kept in H.
  unfold PyDict.items in H.
  destruct (weigh kept (py_sum (PyDict.values kept)) []) as [ws|e] eqn:Hw;
    simpl in H; [|discriminate].
  injection H as <-. apply weigh_Ok_inv in Hw; [now rewrite Hw|].
  simpl. now apply kept_wf.
Qed.

Lemma py_int_ceiling (x : Q) : x <= 0 -> py_int x = Qceiling x.
Proof.
  destruct x as [n d]. unfold Qle, py_int, Qceiling, Qfloor; simpl. intros Hn.
  rewrite <- (Z.opp_involutive n) at 1.
  rewrite Z.quot_opp_l by discriminate.
  rewrite Z.quot_div_nonneg by lia. reflexivity.
Qed.

Lemma py_int_mono (x y : Q) : x <= y -> (py_int x <= py_int y)%Z.
Proof.
  intros Hxy. destruct (Qlt_le_dec x 0) as [Hx|Hx].
  - rewrite (py_int_ceiling (Qlt_le_weak _ _ Hx)).
    destruct (Qlt_le_dec y 0) as [Hy|Hy].
    + rewrite (py_int_ceiling (Qlt_le_weak _ _ Hy)). now apply Qceiling_resp_le.
    + rewrite (py_int_floor Hy).
      transitivity 0%Z.
      * rewrite <- (Qceiling_Z 0). apply Qceiling_resp_le. now apply Qlt_le_weak.
      * rewrite <- (Qfloor_Z 0). now apply Qfloor_resp_le.
  - rewrite (py_int_floor Hx), (py_int_floor (Qle_trans _ _ _ Hx Hxy)).
    now apply Qfloor_resp_le.
Qed.

Lemma scaled_mono (s1 s2 total : Q) :
  0 < total -> s1 <= s2 -> s1 * 1000 / total <= s2 * 1000 / total.
Proof.
  intros Ht H. unfold Qdiv. apply Qmult_le_compat_r.
  - apply Qmult_le_compat_r; [exact H|discriminate].
  - apply Qinv_le_0_compat. now apply Qlt_le_weak.
Qed.

Lemma get_filter_map {A : Type} (f : Z * A -> Z * Z) (l : list (Z * A))
    (uid : Z) (a : A) :
  (forall kv, fst (f kv) = fst kv) ->
  NoDup (PyDict.keys l) -> In (uid, a) l ->
  weight_in (filter (fun kv => negb (snd kv =? 0)%Z) (map f l)) uid
  = snd (f (uid, a)).
Proof.
  intros Hf. unfold weight_in.
  induction l as [|[k b] l IH]; simpl; intros Hnd Hin; [contradiction|].
  inversion Hnd as [|? ? Hnotin Hnd']; subst.
  assert (Hfst := Hf (k, b)). destruct (f (k, b)) as [k' w] eqn:E.
  simpl in Hfst. subst k'. simpl.
  assert (Hskip : forall l', ~ In uid (PyDict.keys l') ->
            PyDict.get (filter (fun kv => negb (snd kv =? 0)%Z) (map f l')) uid
            = None).
  { induction l' as [|[k1 b1] l' IH']; simpl; intros Hn; [reflexivity|].
    assert (H1 := Hf (k1, b1)). destruct (f (k1, b1)) as [k1' w1]. simpl in H1.
    subst k1'. simpl. destruct (negb (w1 =? 0)%Z); simpl.
    - destruct (Z.eqb_spec uid k1) as [->|_]; [exfalso; apply Hn; now left|].
      apply IH'. intros H; apply Hn; now right.
    - apply IH'. intros H; apply Hn; now right. }
  destruct Hin as [Heq|Hin].
  - injection Heq as -> ->. rewrite E. simpl.
    destruct (Z.eqb_spec w 0) as [->|Hw]; simpl.
    + now rewrite (Hskip l Hnotin).
    + now rewrite Z.eqb_refl.
  - assert (Hne : uid <> k).
    { intros ->. apply Hnotin. now apply (in_map fst) in Hin. }
    destruct (negb (w =? 0)%Z); simpl.
    + destruct (Z.eqb_spec uid k); [contradiction|]. now apply IH.
    + now apply IH.
Qed.

End MoreWeights.

(** X4.  A kept peer with a higher score never gets a smaller weight: when
    the kept total is positive, the weights of two kept peers are ordered as
    their scores are (a peer left out of the weight map counting as 0). *)
Theorem weights_follow_scores (score_dict : PyDict.t Q)
    (max_allowed_weights : Z) (wm : PyDict.t Z) :
  PyDict.wf score_dict ->
  let kept := cut_to_max_allowed_weights score_dict max_allowed_weights in
  0 < py_sum (PyDict.values kept) ->
  weighted_scores_of max_allowed_weights score_dict = Ok wm ->
  forall uid1 score1 uid2 score2,
    In (uid1, score1) kept -> In (uid2, score2) kept ->
    score1 <= score2 ->
    (weight_in wm uid1 <= weight_in wm uid2)%Z.
Proof.
  intros Hwf kept Htotal Hwm uid1 score1 uid2 score2 H1 H2 Hle.
  rewrite (weighted_scores_of_entries _ Hwf Hwm). fold kept.
  pose proof (kept_wf max_allowed_weights Hwf) as Hk. fold kept in Hk.
  rewrite (@get_filter_map _ _ kept uid1 score1), (@get_filter_map _ _ kept uid2 score2);
    auto.
  simpl. apply py_int_mono. now apply scaled_mono.
Qed.

Lemma weights_follow_scores_witness :
  let score_dict := [(1%Z, 0.5); (2%Z, 0.7); (3%Z, 0.3)] in
  PyDict.wf score_dict /\
  0 < py_sum (PyDict.values (cut_to_max_allowed_weights score_dict 2)) /\
  weighted_scores_of 2 score_dict = Ok [(2%Z, 583%Z); (1%Z, 416%Z)] /\
  (weight_in [(2%Z, 583%Z); (1%Z, 416%Z)] 1
   <= weight_in [(2%Z, 583%Z); (1%Z, 416%Z)] 2)%Z.
Proof.
  assert (Hwf : PyDict.wf [(1%Z, 0.5); (2%Z, 0.7); (3%Z, 0.3)]).
  { unfold PyDict.wf; simpl.
    repeat (constructor; [simpl; intuition discriminate|]). constructor. }
  assert (Hpos : 0 < py_sum (PyDict.values
                   (cut_to_max_allowed_weights
                      [(1%Z, 0.5); (2%Z, 0.7); (3%Z, 0.3)] 2))) by reflexivity.
  assert (Hwm : weighted_scores_of 2 [(1%Z, 0.5); (2%Z, 0.7); (3%Z, 0.3)]
                = Ok [(2%Z, 583%Z); (1%Z, 416%Z)]) by reflexivity.
  split; [exact Hwf|]. split; [exact Hpos|]. split; [exact Hwm|].
  apply (@weights_follow_scores _ 2 _ Hwf Hpos Hwm 1%Z 0.5 2%Z 0.7).
  - right; now left.
  - now left.
  - intro E; discriminate E.
Defined.

Section WeightSums.


End WeightSums.



Section VoteShape.




End VoteShape.



(** ** More on [cut_to_max_allowed_weights] *)

Section MoreCut.

Lemma sorted_desc_fixed (l : list (Z * Q)) :
  StronglySorted (fun x y => snd y <= snd x) l -> sorted_desc l = l.
Proof.
  induction 1 as [|x l Hs IH Hall]; simpl; [reflexivity|].
  rewrite IH. destruct l as [|y l]; simpl; [reflexivity|].
  inversion Hall as [|? ? Hy _]; subst.
  apply Qle_bool_iff in Hy. now rewrite Hy.
Qed.

Lemma StronglySorted_weaken {A : Type} (R R' : A -> A -> Prop) (l : list A) :
  (forall x y, R x y -> R' x y) -> StronglySorted R l -> StronglySorted R' l.
Proof.
  intros Himp. induction 1 as [|x l Hs IH Hall]; constructor; auto.
  eapply Forall_impl; [|exact Hall]. intros y; apply Himp.
Qed.

Lemma kept_sorted (score_dict : PyDict.t Q) (k : Z) :
  PyDict.wf score_dict ->
  StronglySorted (fun x y => snd y <= snd x)
    (cut_to_max_allowed_weights score_dict k).
Proof.
  intros Hwf. destruct (kept_prefix k Hwf) as (n & -> & _).
  pose proof (sorted_desc_ranked score_dict) as Hs.
  rewrite <- (firstn_skipn n (sorted_desc score_dict)) in Hs.
  apply StronglySorted_app_inv in Hs as [Hs _].
  eapply StronglySorted_weaken; [|exact Hs].
  intros x y. apply ranks_before_le.
Qed.

End MoreCut.

(** X8.  Cutting is idempotent for a ceiling that is a count: cutting the
    result again with the same ceiling changes nothing, neither the entries
    nor their order. *)
Theorem cut_to_max_allowed_weights_idempotent (score_dict : PyDict.t Q)
    (max_allowed_weights : Z) :
  PyDict.wf score_dict ->
  (0 <= max_allowed_weights)%Z ->
  cut_to_max_allowed_weights
    (cut_to_max_allowed_weights score_dict max_allowed_weights)
    max_allowed_weights
  = cut_to_max_allowed_weights score_dict max_allowed_weights.
Proof.
  intros Hwf Hk.
  set (kept := cut_to_max_allowed_weights score_dict max_allowed_weights).
  assert (Hkwf : PyDict.wf kept) by now apply kept_wf.
  rewrite (cut_to_max_allowed_weights_prefix _ Hkwf), (slice_to_nonneg _ Hk).
  pose proof (sorted_desc_fixed (kept_sorted max_allowed_weights Hwf)) as Hfix.
  fold kept in Hfix. rewrite Hfix. apply firstn_all2.
  subst kept. destruct (kept_prefix max_allowed_weights Hwf) as (n & -> & Hn & _).
  rewrite (Hn Hk), length_firstn. lia.
Qed.

Lemma cut_to_max_allowed_weights_idempotent_witness :
  let score_dict := [(1%Z, 0.5); (2%Z, 0.7); (3%Z, 0.5); (4%Z, 0.7)] in
  PyDict.wf score_dict /\ (0 <= 3)%Z /\
  cut_to_max_allowed_weights (cut_to_max_allowed_weights score_dict 3) 3
  = [(2%Z, 0.7); (4%Z, 0.7); (1%Z, 0.5)].
Proof.
  assert (Hwf : PyDict.wf [(1%Z, 0.5); (2%Z, 0.7); (3%Z, 0.5); (4%Z, 0.7)]).
  { unfold PyDict.wf; simpl.
    repeat (constructor; [simpl; intuition discriminate|]). constructor. }
  assert (Hk : (0 <= 3)%Z) by (intro H; discriminate H).
  split; [exact Hwf|]. split; [exact Hk|].
  rewrite (@cut_to_max_allowed_weights_idempotent _ 3 Hwf Hk). reflexivity.
Defined.

(** X9.  A negative ceiling [-m] does not keep [m] entries: the slice
    [sorted_scores[:-m]] drops the [m] lowest-ranked entries (all of them
    when there are no more than [m]) and keeps the rest. *)
Theorem cut_to_max_allowed_weights_negative (score_dict : PyDict.t Q)
    (max_allowed_weights : Z) :
  PyDict.wf score_dict ->
  (max_allowed_weights < 0)%Z ->
  let kept := cut_to_max_allowed_weights score_dict max_allowed_weights in
  exists dropped,
    Permutation score_dict (kept ++ dropped) /\
    List.length dropped
      = Nat.min (Z.to_nat (- max_allowed_weights)) (List.length score_dict) /\
    (forall x y, In x kept -> In y dropped -> ranks_before score_dict x y).
Proof.
  intros Hwf Hk kept. subst kept.
  destruct (kept_prefix max_allowed_weights Hwf) as (n & -> & _ & Hn).
  specialize (Hn Hk).
  exists (skipn n (sorted_desc score_dict)).
  pose proof (sorted_desc_ranked score_dict) as Hs.
  rewrite <- (firstn_skipn n (sorted_desc score_dict)) in Hs.
  apply StronglySorted_app_inv in Hs as [_ Hs2].
  split; [|split].
  - rewrite firstn_skipn. apply sorted_desc_perm.
  - rewrite length_skipn, sorted_desc_length. lia.
  - exact Hs2.
Qed.

Lemma cut_to_max_allowed_weights_negative_witness :
  let score_dict := [(1%Z, 0.5); (2%Z, 0.7); (3%Z, 0.5); (4%Z, 0.7)] in
  PyDict.wf score_dict /\ (-1 < 0)%Z /\
  cut_to_max_allowed_weights score_dict (-1)
    = [(2%Z, 0.7); (4%Z, 0.7); (1%Z, 0.5)] /\
  exists dropped,
    Permutation score_dict
      (cut_to_max_allowed_weights score_dict (-1) ++ dropped) /\
    List.length dropped = 1%nat.
Proof.
  assert (Hwf : PyDict.wf [(1%Z, 0.5); (2%Z, 0.7); (3%Z, 0.5); (4%Z, 0.7)]).
  { unfold PyDict.wf; simpl.
    repeat (constructor; [simpl; intuition discriminate|]). constructor. }
  assert (Hk : (-1 < 0)%Z) by reflexivity.
  split; [exact Hwf|]. split; [exact Hk|]. split; [reflexivity|].
  destruct (@cut_to_max_allowed_weights_negative _ (-1) Hwf Hk)
    as (dropped & Hp & Hl & _).
  exists dropped. split; [exact Hp|exact Hl].
Defined.

(** ** More on addresses *)

Section AddressRoundTrip.

Local Open Scope string_scope.

Lemma run_app_exact (c : char_class) (w rest : string) :
  all_in c w = true -> stops_at c rest ->
  run_length c (w ++ rest) = String.length w.
Proof.
  induction w as [|a w IH]; simpl; intros Hall Hstop.
  - destruct rest as [|b rest]; simpl in *; [reflexivity|now rewrite Hstop].
  - apply andb_true_iff in Hall as [Ha Hw]. rewrite Ha. f_equal. now apply IH.
Qed.

Lemma backtrack_first (f : nat -> option nat) (lo k n : nat) :
  (lo <= k)%nat -> f k = Some n -> backtrack f lo k = Some (k + n)%nat.
Proof.
  intros Hlo Hf. destruct k as [|k]; simpl.
  - destruct (Nat.ltb_spec 0 lo); [lia|]. now rewrite Hf.
  - destruct (Nat.ltb_spec (S k) lo); [lia|]. now rewrite Hf.
Qed.

(** A block that is as long as the class allows it to be is what the greedy
    matcher takes first. *)
Lemma match_here_block (a : atom) (r : regex) (w rest : string) (n : nat) :
  all_in (atom_class a) w = true ->
  (atom_min a <= String.length w)%nat ->
  within (atom_max a) (String.length w) ->
  stops_at (atom_class a) rest ->
  match_here r rest = Some n ->
  match_here (a :: r) (w ++ rest) = Some (String.length w + n)%nat.
Proof.
  intros Hall Hmin Hmax Hstop Hrest. simpl.
  rewrite (@run_app_exact _ w rest Hall Hstop).
  assert (Hhi : match atom_max a with
                | Some m => Nat.min m (String.length w)
                | None => String.length w
                end = String.length w).
  { unfold within in Hmax. destruct (atom_max a); lia. }
  rewrite Hhi. apply backtrack_first; [exact Hmin|].
  now rewrite drop_app.
Qed.

Lemma re_search_here (r : regex) (s : string) (n : nat) :
  match_here r s = Some n -> re_search r s = Some (take n s).
Proof. intros H. destruct s; simpl in *; now rewrite H. Qed.

Lemma digits_stop_lit (x : ascii) (s tail : string) :
  is_digit x = false -> all_digits s = true -> (1 <= String.length s)%nat ->
  stops_at (Lit x) (s ++ tail).
Proof.
  intros Hx Hs Hl. destruct s as [|a s]; simpl in *; [lia|].
  apply andb_true_iff in Hs as [Ha _].
  apply Ascii.eqb_neq. intros ->. congruence.
Qed.

Lemma extract_address_exact (h p post : string) :
  host_port h p -> stops_at Digit post ->
  extract_address (h ++ ":" ++ p ++ post) = Some (h ++ ":" ++ p).
Proof.
  intros [(o1 & o2 & o3 & o4 & [A1 B1] & [A2 B2] & [A3 B3] & [A4 B4] & ->)
            [Ap Bp]] Hpost.
  unfold extract_address.
  set (m := (o1 ++ "." ++ o2 ++ "." ++ o3 ++ "." ++ o4) ++ ":" ++ p).
  assert (Es : (o1 ++ "." ++ o2 ++ "." ++ o3 ++ "." ++ o4) ++ ":" ++ p ++ post
               = m ++ post).
  { subst m. repeat (rewrite sapp_assoc; simpl). reflexivity. }
  rewrite Es.
  assert (Hm : match_here IP_REGEX (m ++ post) = Some (String.length m)).
  { assert (El : String.length m
                 = (String.length o1 + (1 + (String.length o2
                    + (1 + (String.length o3 + (1 + (String.length o4
                    + (1 + (String.length p + 0)))))))))%nat).
    { subst m. repeat (rewrite slength_app; simpl). lia. }
    rewrite El.
    replace (m ++ post)
      with (o1 ++ "." ++ o2 ++ "." ++ o3 ++ "." ++ o4 ++ ":" ++ p ++ post)
      by (subst m; repeat (rewrite sapp_assoc; simpl); reflexivity).
    rewrite <- all_in_Digit in A1, A2, A3, A4, Ap.
    unfold IP_REGEX, digits, lit.
    assert (Hlit : forall c r rest n,
               stops_at (Lit c) rest -> match_here r rest = Some n ->
               match_here (Atom (Lit c) 1 (Some 1%nat) :: r) (String c rest)
               = Some (1 + n)%nat).
    { intros c r rest n Hs Hr.
      apply (@match_here_block (Atom (Lit c) 1 (Some 1%nat)) r (String c "") rest n);
        simpl; auto. now rewrite Ascii.eqb_refl. }
    assert (Hstep : forall o hi r rest n,
               all_in Digit o = true -> (1 <= String.length o)%nat ->
               within hi (String.length o) -> stops_at Digit rest ->
               match_here r rest = Some n ->
               match_here (Atom Digit 1 hi :: r) (o ++ rest)
               = Some (String.length o + n)%nat).
    { intros o hi r rest n Ho Hl Hw Hs Hr.
      now apply (@match_here_block (Atom Digit 1 hi) r o rest n). }
    apply Hstep; [exact A1|lia|simpl; lia|reflexivity|].
    apply Hlit;
      [apply digits_stop_lit;
         [reflexivity|rewrite <- all_in_Digit; assumption|lia]|].
    apply Hstep; [exact A2|lia|simpl; lia|reflexivity|].
    apply Hlit;
      [apply digits_stop_lit;
         [reflexivity|rewrite <- all_in_Digit; assumption|lia]|].
    apply Hstep; [exact A3|lia|simpl; lia|reflexivity|].
    apply Hlit;
      [apply digits_stop_lit;
         [reflexivity|rewrite <- all_in_Digit; assumption|lia]|].
    apply Hstep; [exact A4|lia|simpl; lia|reflexivity|].
    apply Hlit;
      [apply digits_stop_lit;
         [reflexivity|rewrite <- all_in_Digit; assumption|lia]|].
    apply Hstep; [exact Ap|lia|exact I|exact Hpost|].
    now destruct post. }
  rewrite (@re_search_here IP_REGEX (m ++ post) _ Hm). now rewrite take_app.
Qed.

End AddressRoundTrip.

(** X10.  An address that starts with a well-formed host:port and goes on,
    if at all, with something that is not a digit is resolved to exactly that
    host and that port, and the port text reads back as a number. *)
Theorem get_ip_port_exact (id : Z) (h p post : string) :
  host_port h p -> stops_at Digit post ->
  get_ip_port [(id, (h ++ ":" ++ p ++ post)%string)] = [(id, [PyStr h; PyStr p])] /\
  exists port, py_int_of (PyStr p) = Ok port.
Proof.
  intros Hhp Hpost. split.
  - unfold get_ip_port, PyDict.items. cbn [map fst snd].
    rewrite (@extract_address_exact h p post Hhp Hpost).
    cbn [flat_map fst snd List.app].
    now rewrite (@split_host_port h p Hhp).
  - destruct Hhp as [_ [Hp Hl]].
    destruct p as [|a p]; [simpl in Hl; lia|].
    unfold py_int_of. now apply parse_digits_ok.
Qed.

Lemma get_ip_port_exact_witness :
  host_port "192.168.1.20" "8080" /\ stops_at Digit "/api" /\
  get_ip_port [(7%Z, "192.168.1.20:8080/api"%string)]
    = [(7%Z, [PyStr "192.168.1.20"; PyStr "8080"])].
Proof.
  assert (Hhp : host_port "192.168.1.20" "8080").
  { split.
    - exists "192"%string, "168"%string, "1"%string, "20"%string.
      unfold octet; simpl. repeat split; auto; lia.
    - simpl. split; [reflexivity|lia]. }
  assert (Hs : stops_at Digit "/api") by reflexivity.
  split; [exact Hhp|]. split; [exact Hs|].
  exact (proj1 (@get_ip_port_exact 7 "192.168.1.20" "8080" "/api" Hhp Hs)).
Defined.

(** ** Which modules are polled *)

Section Selection.

Definition selected_entry (modules_filtered_address : PyDict.t (list pyval))
    (kv : Z * string) : list (Z * (list pyval * string)) :=
  match PyDict.get modules_filtered_address (fst kv) with
  | None => []
  | Some [] => []
  | Some module_addr => [(fst kv, (module_addr, snd kv))]
  end.

Lemma select_modules_flat (modules_filtered_address : PyDict.t (list pyval))
    (modules_keys : PyDict.t string) :
  PyDict.wf modules_keys ->
  select_modules modules_keys modules_filtered_address
  = flat_map (selected_entry modules_filtered_address) modules_keys.
Proof.
  unfold select_modules, PyDict.items, PyDict.wf.
  assert (H : forall l acc,
             NoDup (PyDict.keys l) ->
             (forall k, In k (PyDict.keys acc) -> ~ In k (PyDict.keys l)) ->
             fold_left
               (fun modules_info kv =>
                  match PyDict.get modules_filtered_address (fst kv) with
                  | None => modules_info
                  | Some [] => modules_info
                  | Some module_addr =>
                      PyDict.set modules_info (fst kv) (module_addr, snd kv)
                  end) l acc
             = acc ++ flat_map (selected_entry modules_filtered_address) l).
  { induction l as [|[k key] l IH]; intros acc Hnd Hdis; simpl.
    - now rewrite app_nil_r.
    - inversion Hnd as [|? ? Hk Hnd']; subst.
      unfold selected_entry at 1. simpl.
      destruct (PyDict.get modules_filtered_address k) as [[|x addr]|] eqn:G.
      + simpl. apply IH; [exact Hnd'|].
        intros k' Hin Hl. apply (Hdis k' Hin). now right.
      + rewrite PyDictFacts.set_fresh.
        * rewrite IH; [now rewrite <- app_assoc|exact Hnd'|].
          intros k' Hin Hl. unfold PyDict.keys in Hin. rewrite map_app in Hin.
          apply in_app_or in Hin as [Hin|[<-|[]]]; [|contradiction].
          apply (Hdis k' Hin). now right.
        * intros Hin. apply (Hdis k Hin). now left.
      + simpl. apply IH; [exact Hnd'|].
        intros k' Hin Hl. apply (Hdis k' Hin). now right. }
  intros Hnd. rewrite H; [reflexivity|exact Hnd|intros k []].
Qed.

Lemma get_ip_port_wf (modules_adresses : PyDict.t string) :
  PyDict.wf modules_adresses -> PyDict.wf (get_ip_port modules_adresses).
Proof.
  unfold PyDict.wf, get_ip_port, PyDict.items, PyDict.keys.
  induction modules_adresses as [|[id addr] l IH]; simpl; intros Hnd; [constructor|].
  inversion Hnd as [|? ? Hn Hnd']; subst.
  destruct (extract_address addr) as [m|]; simpl; [|now apply IH].
  constructor; [|now apply IH].
  intros Hin. apply Hn. apply in_map_iff in Hin as ([id' v] & E & Hin).
  simpl in E; subst id'. apply in_flat_map in Hin as ([id' x] & Hx & Hv).
  apply in_map_iff in Hx as ([id'' a] & E & Hx). simpl in E.
  injection E as -> _. simpl in Hv. destruct x; [|contradiction].
  destruct Hv as [Hv|[]]. injection Hv as -> _.
  apply in_map_iff. now exists (id, a).
Qed.

End Selection.

(** ** The leftmost match *)

Section LeftmostMatch.

Local Open Scope string_scope.

Lemma sapp_inj_length (a a' x x' : string) :
  a ++ x = a' ++ x' -> String.length a = String.length a' ->
  a = a' /\ x = x'.
Proof.
  revert a'; induction a as [|c a IH]; intros [|c' a']; simpl; intros E Hl;
    try discriminate.
  - now split.
  - injection E as -> E. injection Hl as Hl.
    destruct (IH _ E Hl) as [-> ->]. now split.
Qed.

Lemma all_digits_app (a b : string) :
  all_digits (a ++ b) = all_digits a && all_digits b.
Proof.
  induction a as [|c a IH]; simpl; [reflexivity|].
  now rewrite IH, andb_assoc.
Qed.

(** Every string is a run of digits followed by something a run of digits
    stops at. *)
Lemma digit_run_split (s : string) :
  exists d rest, s = d ++ rest /\ all_digits d = true /\ stops_at Digit rest.
Proof.
  induction s as [|c s (d & rest & E & Hd & Hr)].
  - exists "", "". now repeat split.
  - destruct (is_digit c) eqn:Hc.
    + exists (String c d), rest. simpl. rewrite Hc, Hd, <- E. now repeat split.
    + exists "", (String c s). now repeat split.
Qed.

Lemma match_here_exact (h p post : string) :
  host_port h p -> stops_at Digit post ->
  match_here IP_REGEX ((h ++ ":" ++ p) ++ post)
  = Some (String.length (h ++ ":" ++ p)).
Proof.
  intros [(o1 & o2 & o3 & o4 & [A1 B1] & [A2 B2] & [A3 B3] & [A4 B4] & ->)
            [Ap Bp]] Hpost.
  set (m := (o1 ++ "." ++ o2 ++ "." ++ o3 ++ "." ++ o4) ++ ":" ++ p).
  assert (El : String.length m
               = (String.length o1 + (1 + (String.length o2
                  + (1 + (String.length o3 + (1 + (String.length o4
                  + (1 + (String.length p + 0)))))))))%nat).
  { subst m. repeat (rewrite slength_app; simpl). lia. }
  rewrite El.
  replace (m ++ post)
    with (o1 ++ "." ++ o2 ++ "." ++ o3 ++ "." ++ o4 ++ ":" ++ p ++ post)
    by (subst m; repeat (rewrite sapp_assoc; simpl); reflexivity).
  rewrite <- all_in_Digit in A1, A2, A3, A4, Ap.
  unfold IP_REGEX, digits, lit.
  assert (Hlit : forall c r rest n,
             stops_at (Lit c) rest -> match_here r rest = Some n ->
             match_here (Atom (Lit c) 1 (Some 1%nat) :: r) (String c rest)
             = Some (1 + n)%nat).
  { intros c r rest n Hs Hr.
    apply (@match_here_block (Atom (Lit c) 1 (Some 1%nat)) r (String c "") rest n);
      simpl; auto. now rewrite Ascii.eqb_refl. }
  assert (Hstep : forall o hi r rest n,
             all_in Digit o = true -> (1 <= String.length o)%nat ->
             within hi (String.length o) -> stops_at Digit rest ->
             match_here r rest = Some n ->
             match_here (Atom Digit 1 hi :: r) (o ++ rest)
             = Some (String.length o + n)%nat).
  { intros o hi r rest n Ho Hl Hw Hs Hr.
    now apply (@match_here_block (Atom Digit 1 hi) r o rest n). }
  apply Hstep; [exact A1|lia|simpl; lia|reflexivity|].
  apply Hlit;
    [apply digits_stop_lit;
       [reflexivity|rewrite <- all_in_Digit; assumption|lia]|].
  apply Hstep; [exact A2|lia|simpl; lia|reflexivity|].
  apply Hlit;
    [apply digits_stop_lit;
       [reflexivity|rewrite <- all_in_Digit; assumption|lia]|].
  apply Hstep; [exact A3|lia|simpl; lia|reflexivity|].
  apply Hlit;
    [apply digits_stop_lit;
       [reflexivity|rewrite <- all_in_Digit; assumption|lia]|].
  apply Hstep; [exact A4|lia|simpl; lia|reflexivity|].
  apply Hlit;
    [apply digits_stop_lit;
       [reflexivity|rewrite <- all_in_Digit; assumption|lia]|].
  apply Hstep; [exact Ap|lia|exact I|exact Hpost|].
  now destruct post.
Qed.

(** What [re_search] returns is a match at its position, and the matcher
    found nothing at any position in front of it. *)
Lemma re_search_leftmost (r : regex) (s m : string) :
  re_search r s = Some m ->
  exists pre post n,
    s = pre ++ m ++ post /\
    match_here r (m ++ post) = Some n /\ m = take n (m ++ post) /\
    forall a b, pre = a ++ b -> b <> "" -> match_here r (b ++ m ++ post) = None.
Proof.
  induction s as [|c s IH]; simpl.
  - destruct (match_here r "") as [n|] eqn:E; [|discriminate].
    intros H; inversion H; subst; clear H.
    exists "", "", n.
    assert (Et : take n "" = "") by now destruct n.
    rewrite Et. simpl. repeat split; auto.
    intros a b Hab Hb. destruct a; destruct b; simpl in Hab; congruence.
  - destruct (match_here r (String c s)) as [n|] eqn:E.
    + intros H; inversion H; subst; clear H.
      exists "", (drop n (String c s)), n.
      rewrite take_drop. simpl. repeat split; auto.
      intros a b Hab Hb. destruct a; destruct b; simpl in Hab; congruence.
    + intros H. destruct (IH H) as (pre & post & n & -> & Hn & Hm & Hnone).
      exists (String c pre), post, n. repeat split; auto.
      intros a b Hab Hb. destruct a as [|c' a]; simpl in Hab.
      * subst b. simpl. exact E.
      * injection Hab as -> ->. now apply (Hnone a b).
Qed.

(** [re_search] passes over a prefix no position of which has a match. *)
Lemma re_search_skip (r : regex) (pre s : string) :
  (forall a b, pre = a ++ b -> b <> "" -> match_here r (b ++ s) = None) ->
  re_search r (pre ++ s) = re_search r s.
Proof.
  induction pre as [|c pre IH]; intros Hnone; [reflexivity|].
  assert (H0 : match_here r (String c pre ++ s) = None).
  { apply (Hnone "" (String c pre)); [reflexivity|discriminate]. }
  simpl in *. rewrite H0.
  apply IH. intros a b -> Hb. apply (Hnone (String c a) b); auto.
Qed.

Lemma extract_address_leftmost (s m : string) :
  extract_address s = Some m <->
  exists pre h p post, leftmost_match s pre h p post /\ m = h ++ ":" ++ p.
Proof.
  unfold extract_address. split.
  - intros H.
    apply re_search_leftmost in H as (pre & post & n & -> & Hn & Hm & Hnone).
    assert (Hmatch : matches IP_REGEX m).
    { rewrite Hm. now apply match_here_sound. }
    apply matches_IP_REGEX in Hmatch as (h & p & Hhp & ->).
    exists pre, h, p, post. split; [|reflexivity].
    split; [exact Hhp|]. split; [now rewrite !sapp_assoc|]. split.
    + destruct (digit_run_split post) as (d & rest & -> & Hd & Hrest).
      assert (Hhp' : host_port h (p ++ d)).
      { destruct Hhp as [Hh [Hp Hl]]. split; [exact Hh|]. split.
        - now rewrite all_digits_app, Hp, Hd.
        - rewrite slength_app. lia. }
      pose proof (@match_here_exact h (p ++ d) rest Hhp' Hrest) as Hex.
      assert (Es : (h ++ ":" ++ p ++ d) ++ rest = (h ++ ":" ++ p) ++ d ++ rest).
      { now rewrite !sapp_assoc. }
      rewrite Es, Hn in Hex. injection Hex as ->.
      assert (El : String.length (h ++ ":" ++ p ++ d)
                   = (String.length (h ++ ":" ++ p) + String.length d)%nat).
      { replace (h ++ ":" ++ p ++ d) with ((h ++ ":" ++ p) ++ d)
          by now rewrite !sapp_assoc.
        apply slength_app. }
      simpl in El, Hm. rewrite El, take_add, take_app, drop_app, take_app in Hm.
      apply (f_equal String.length) in Hm. rewrite !slength_app in Hm.
      destruct d as [|c d]; [exact Hrest|simpl in Hm; lia].
    + intros pre' h' p' post' Hhp' Es.
      destruct (Nat.le_gt_cases (String.length pre) (String.length pre'))
        as [Hle|Hgt]; [exact Hle|exfalso].
      assert (Epre : pre = take (String.length pre') pre
                           ++ drop (String.length pre') pre)
        by (symmetry; apply take_drop).
      set (a := take (String.length pre') pre) in *.
      set (b := drop (String.length pre') pre) in *.
      assert (La : String.length a = String.length pre').
      { assert (L : String.length pre = (String.length a + String.length b)%nat)
          by (rewrite Epre at 1; apply slength_app).
        assert (Lb : (String.length b = String.length pre - String.length pre')%nat).
        { subst b. clear. revert pre.
          induction (String.length pre') as [|k IH]; intros [|c pre]; simpl;
            try lia. apply IH. }
        lia. }
      assert (Hb : b <> "").
      { intros Eb. rewrite Eb, sapp_nil_r in Epre.
        rewrite Epre in Hgt. lia. }
      rewrite Epre in Es.
      assert (Es' : a ++ (b ++ (h ++ ":" ++ p) ++ post)
                    = pre' ++ (h' ++ ":" ++ p') ++ post').
      { transitivity ((a ++ b) ++ (h ++ ":" ++ p) ++ post);
          [now rewrite !sapp_assoc|].
        rewrite Es. now rewrite !sapp_assoc. }
      apply sapp_inj_length in Es' as [_ Es']; [|exact La].
      pose proof (Hnone a b Epre Hb) as Hno.
      rewrite Es' in Hno.
      revert Hno. apply match_here_complete.
      apply matches_IP_REGEX. now exists h', p'.
  - intros (pre & h & p & post & (Hhp & -> & Hpost & Hleft) & ->).
    replace (pre ++ h ++ ":" ++ p ++ post) with (pre ++ (h ++ ":" ++ p) ++ post)
      by now rewrite !sapp_assoc.
    rewrite re_search_skip.
    + rewrite (@re_search_here IP_REGEX _ _ (@match_here_exact h p post Hhp Hpost)).
      now rewrite take_app.
    + intros a b -> Hb.
      destruct (match_here IP_REGEX (b ++ (h ++ ":" ++ p) ++ post)) as [n|] eqn:E;
        [exfalso|reflexivity].
      pose proof (@match_here_sound _ _ _ E) as Hm.
      apply matches_IP_REGEX in Hm as (h' & p' & Hhp' & Et).
      assert (Es : (a ++ b) ++ h ++ ":" ++ p ++ post
                   = a ++ h' ++ ":" ++ p'
                       ++ drop n (b ++ (h ++ ":" ++ p) ++ post)).
      { transitivity (a ++ (h' ++ ":" ++ p')
                        ++ drop n (b ++ (h ++ ":" ++ p) ++ post)).
        - rewrite <- Et, take_drop. now rewrite !sapp_assoc.
        - now rewrite !sapp_assoc. }
      specialize (Hleft _ _ _ _ Hhp' Es). rewrite slength_app in Hleft.
      destruct b; [congruence|simpl in Hleft; lia].
Qed.

(** The leftmost match is one: two descriptions of it name the same host
    and the same port. *)
Lemma leftmost_match_unique (s pre h p post pre' h' p' post' : string) :
  leftmost_match s pre h p post -> leftmost_match s pre' h' p' post' ->
  h = h' /\ p = p'.
Proof.
  intros H H'.
  assert (E : extract_address s = Some (h ++ ":" ++ p)).
  { apply extract_address_leftmost. now exists pre, h, p, post. }
  assert (E' : extract_address s = Some (h' ++ ":" ++ p')).
  { apply extract_address_leftmost. now exists pre', h', p', post'. }
  rewrite E in E'. injection E' as E'.
  assert (Es : split_on ":" (h ++ ":" ++ p) = split_on ":" (h' ++ ":" ++ p')).
  { f_equal. exact E'. }
  rewrite (@split_host_port h p (proj1 H)),
    (@split_host_port h' p' (proj1 H')) in Es.
  now injection Es as -> ->.
Qed.

End LeftmostMatch.

(** C8, as the code has it.  [get_ip_port] keeps exactly the entries whose
    raw string contains a host:port pattern, and maps each of them to the
    two-element list of the host text and the port text of the match
    [re.search] finds: the one that starts leftmost, with the port taking
    every digit there is.  That match is determined by the raw string, and
    every entry that has one is kept with it, once; nothing raises.  The
    port is text, which [int] converts when the peer client is built.  On
    [{1: "garbage", 2: "10.0.0.5:9000 extra"}] the result is
    [{2: ["10.0.0.5", "9000"]}], and of the two patterns in
    ["1.2.3.4:567 6.7.8.9:10"] the first is taken, with all of its port. *)
Theorem get_ip_port_keeps_host_port (modules_adresses : PyDict.t string) :
  (forall id,
     In id (PyDict.keys (get_ip_port modules_adresses)) <->
     exists addr, In (id, addr) modules_adresses /\ contains_host_port addr) /\
  (forall id v,
     In (id, v) (get_ip_port modules_adresses) ->
     exists addr pre h p post,
       In (id, addr) modules_adresses /\
       leftmost_match addr pre h p post /\
       v = [PyStr h; PyStr p] /\
       Forall (fun x => is_int x = false) v /\
       exists n, py_int_of (PyStr p) = Ok n) /\
  (forall id addr pre h p post,
     In (id, addr) modules_adresses ->
     leftmost_match addr pre h p post ->
     In (id, [PyStr h; PyStr p]) (get_ip_port modules_adresses)) /\
  (forall addr pre h p post pre' h' p' post',
     leftmost_match addr pre h p post ->
     leftmost_match addr pre' h' p' post' ->
     h = h' /\ p = p') /\
  (PyDict.wf modules_adresses -> PyDict.wf (get_ip_port modules_adresses)) /\
  get_ip_port example_addresses
    = [(2%Z, [PyStr "10.0.0.5"; PyStr "9000"])] /\
  get_ip_port [(1%Z, "1.2.3.4:567 6.7.8.9:10"%string)]
    = [(1%Z, [PyStr "1.2.3.4"; PyStr "567"])] /\
  py_int_of (PyStr "9000") = Ok 9000%Z.
Proof.
  split; [|split; [|split; [|split; [|split; [|repeat split]]]]].
  - intros id. unfold PyDict.keys. rewrite in_map_iff. split.
    + intros ([id' v] & Heq & Hin). simpl in Heq; subst id'.
      apply get_ip_port_In in Hin as (addr & m & Hin & E & _).
      exists addr. split; [exact Hin|].
      apply extract_address_sound in E as (pre & h & p & post & Hhp & _ & ->).
      now exists pre, h, p, post.
    + intros (addr & Hin & Hc). apply extract_address_complete in Hc.
      destruct (extract_address addr) as [m|] eqn:E; [|congruence].
      exists (id, map PyStr (split_on ":" m)). split; [reflexivity|].
      apply get_ip_port_In. now exists addr, m.
  - intros id v Hin.
    apply get_ip_port_In in Hin as (addr & m & Hin & E & ->).
    apply extract_address_leftmost in E as (pre & h & p & post & Hl & ->).
    exists addr, pre, h, p, post.
    pose proof Hl as (Hhp & _).
    rewrite (@split_host_port h p Hhp). simpl.
    split; [exact Hin|]. split; [exact Hl|]. split; [reflexivity|].
    split; [repeat constructor|].
    destruct Hhp as [_ [Hp Hlen]].
    destruct p as [|a p]; [simpl in Hlen; lia|].
    unfold py_int_of. now apply parse_digits_ok.
  - intros id addr pre h p post Hin Hl.
    apply get_ip_port_In. exists addr, (h ++ ":" ++ p)%string.
    split; [exact Hin|]. split.
    + apply extract_address_leftmost. now exists pre, h, p, post.
    + now rewrite (@split_host_port h p (proj1 Hl)).
  - intros addr pre h p post pre' h' p' post'. apply leftmost_match_unique.
  - apply get_ip_port_wf.
Qed.

(** C8 fails as stated: on the example the port component is the text
    ["9000"], not the integer 9000. *)
Lemma get_ip_port_port_is_text :
  get_ip_port example_addresses
    = [(2%Z, [PyStr "10.0.0.5"; PyStr "9000"])] /\
  map (map is_int) (PyDict.values (get_ip_port example_addresses))
    = [[false; false]] /\
  is_int (PyInt 9000) = true.
Proof. repeat split. Qed.

(** X11.  A module is polled exactly when it is registered under the subnet
    and the address it published contains a host:port pattern; the polled
    modules keep the order of the key map.  A module without a usable address
    is never called. *)
Theorem select_modules_resolved (modules_keys modules_adresses : PyDict.t string) :
  PyDict.wf modules_keys ->
  PyDict.wf modules_adresses ->
  let modules_info :=
    select_modules modules_keys (get_ip_port modules_adresses) in
  (forall module_id,
     In module_id (PyDict.keys modules_info) <->
     In module_id (PyDict.keys modules_keys) /\
     exists addr, In (module_id, addr) modules_adresses /\
                  contains_host_port addr) /\
  PyDict.keys modules_info
  = filter (fun module_id =>
              match PyDict.get (get_ip_port modules_adresses) module_id with
              | Some _ => true
              | None => false
              end) (PyDict.keys modules_keys).
Proof.
  intros Hk Ha modules_info. subst modules_info.
  rewrite (select_modules_flat _ Hk).
  pose proof (get_ip_port_wf Ha) as Hwf.
  assert (Hget : forall id,
            (exists v, PyDict.get (get_ip_port modules_adresses) id = Some v) <->
            exists addr, In (id, addr) modules_adresses /\ contains_host_port addr).
  { intros id. split.
    - intros (v & G). apply PyDictFacts.get_Some_In in G.
      apply get_ip_port_In in G as (addr & m & Hin & E & _).
      exists addr. split; [exact Hin|].
      apply extract_address_sound in E as (pre & h & p & post & Hhp & _ & ->).
      now exists pre, h, p, post.
    - intros (addr & Hin & Hc). apply extract_address_complete in Hc.
      destruct (extract_address addr) as [m|] eqn:E; [|congruence].
      exists (map PyStr (split_on ":" m)). apply PyDictFacts.get_In; [exact Hwf|].
      apply get_ip_port_In. now exists addr, m. }
  assert (Hne : forall id v,
            PyDict.get (get_ip_port modules_adresses) id = Some v -> v <> []).
  { intros id v G. apply PyDictFacts.get_Some_In in G.
    apply get_ip_port_In in G as (addr & m & _ & E & ->).
    apply extract_address_sound in E as (pre & h & p & post & Hhp & -> & _).
    rewrite (@split_host_port h p Hhp). discriminate. }
  split.
  - intros module_id. rewrite <- Hget. unfold PyDict.keys.
    rewrite in_map_iff. split.
    + intros ([id [addr key]] & E & Hin). simpl in E; subst id.
      apply in_flat_map in Hin as ([id key'] & Hin & Hsel).
      unfold selected_entry in Hsel. simpl in Hsel.
      destruct (PyDict.get (get_ip_port modules_adresses) id) as [[|x v]|] eqn:G;
        try contradiction.
      destruct Hsel as [Hsel|[]]. injection Hsel as -> _ _.
      split; [apply in_map_iff; now exists (module_id, key')|eauto].
    + intros [Hin (v & G)]. apply in_map_iff in Hin as ([id key] & E & Hin).
      simpl in E; subst id.
      exists (module_id, (v, key)). split; [reflexivity|].
      apply in_flat_map. exists (module_id, key). split; [exact Hin|].
      unfold selected_entry. simpl. rewrite G.
      destruct v as [|x v]; [now apply Hne in G|now left].
  - clear Hget Hk. unfold PyDict.keys.
    induction modules_keys as [|[id key] l IH]; simpl; [reflexivity|].
    unfold selected_entry at 1. simpl.
    destruct (PyDict.get (get_ip_port modules_adresses) id) as [[|x v]|] eqn:G.
    + now apply Hne in G.
    + simpl. now rewrite IH.
    + simpl. exact IH.
Qed.

Lemma select_modules_resolved_witness :
  let modules_keys :=
    [(0%Z, "5Validator"); (1%Z, "5MinerA"); (2%Z, "5MinerB")]%string in
  let modules_adresses :=
    [(1%Z, "10.0.0.5:9000"); (2%Z, "not published")]%string in
  PyDict.wf modules_keys /\ PyDict.wf modules_adresses /\
  PyDict.keys (select_modules modules_keys (get_ip_port modules_adresses))
  = [1%Z].
Proof.
  assert (Hk : PyDict.wf [(0%Z, "5Validator"); (1%Z, "5MinerA");
                          (2%Z, "5MinerB")]%string).
  { unfold PyDict.wf; simpl.
    repeat (constructor; [simpl; intuition discriminate|]). constructor. }
  assert (Ha : PyDict.wf [(1%Z, "10.0.0.5:9000"); (2%Z, "not published")]%string).
  { unfold PyDict.wf; simpl.
    repeat (constructor; [simpl; intuition discriminate|]). constructor. }
  split; [exact Hk|]. split; [exact Ha|].
  rewrite (proj2 (@select_modules_resolved _ _ Hk Ha)). reflexivity.
Defined.

(** ** More on [_score_miner] *)

Section MoreScores.

Variable jaro_winkler_similarity : string -> string -> Q.
Variable dice : list Z -> list Z -> Q.
Variable ratio : string -> string -> Q.

(** X12.  A single answer has no peer to agree with: its three aggregates
    are 0 and its score is the latency term alone. *)
Theorem score_miner_single_peer (answer : string) (uid : Z) (latency : Q) :
  analyze answer <> [] ->
  exists score,
    _score_miner jaro_winkler_similarity dice ratio [answer] [uid] [latency]
    = Ok [(uid, score)] /\
    score == 1 / Qmax latency 1 * 0.2.
Proof.
  intros Hb.
  destruct (@fit_transform_ok [answer]) as [X HX].
  { exists answer. split; [now left|exact Hb]. }
  unfold _score_miner, calculate_dice_similarity_scores. rewrite HX.
  unfold rbind at 1. cbn [List.length].
  unfold calculate_jaro_winkler_scores, calculate_ratcliff_obershelp_scores.
  cbn [List.length].
  unfold score_loop. cbn [pairwise_scores seq repeat fold_left Nat.eqb negb].
  unfold index. cbn [nth_error rbind]. rewrite py_div_by_time. cbn [rbind].
  eexists. split; [reflexivity|].
  rewrite py_max_Qmax. field.
  intros E. pose proof (Q.le_max_r latency 1) as H. rewrite E in H. exact (H eq_refl).
Qed.

End MoreScores.

Lemma score_miner_single_peer_witness :
  analyze "hello" <> [] /\
  exists score,
    _score_miner (const_measure 1) (const_measure 0) (const_measure 1)
      ["hello"%string] [7%Z] [1 # 2]
    = Ok [(7%Z, score)] /\
    score == 0.2.
Proof.
  assert (Hb : analyze "hello" <> []) by discriminate.
  split; [exact Hb|].
  destruct (@score_miner_single_peer (const_measure 1) (const_measure 0)
              (const_measure 1) "hello" 7 (1 # 2) Hb) as (score & E & Hs).
  exists score. split; [exact E|]. rewrite Hs. reflexivity.
Defined.



Section ScoreErrors.

Variable jaro_winkler_similarity : string -> string -> Q.
Variable dice : list Z -> list Z -> Q.
Variable ratio : string -> string -> Q.

Lemma index_out {A : Type} (l : list A) (i : nat) :
  (List.length l <= i)%nat -> index l i = Raise IndexError.
Proof.
  intros H. unfold index. apply nth_error_None in H. now rewrite H.
Qed.

Lemma score_loop_IndexError (jw dc ro : list Q) (miner_uids : list Z) (n : nat) :
  List.length jw = n -> List.length dc = n -> List.length ro = n ->
  forall miner_time i score_dict,
    (i <= n)%nat -> (i <= List.length miner_uids)%nat ->
    (n < i + List.length miner_time)%nat
    \/ (List.length miner_uids < i + List.length miner_time)%nat ->
    score_loop jw dc ro miner_uids i miner_time score_dict = Raise IndexError.
Proof.
  intros L1 L2 L3.
  induction miner_time as [|t rest IH]; intros i score_dict Hi Hu Hlong;
    simpl in *; [lia|].
  destruct (Nat.eq_dec i n) as [->|Hne].
  - rewrite (@index_out _ jw n) by lia. reflexivity.
  - rewrite (@index_ok _ jw i 0) by lia.
    rewrite (@index_ok _ dc i 0) by lia.
    rewrite (@index_ok _ ro i 0) by lia.
    rewrite py_div_by_time. simpl.
    destruct (Nat.eq_dec i (List.length miner_uids)) as [E|Hne'].
    + rewrite (@index_out _ miner_uids i) by lia. reflexivity.
    + rewrite (@index_ok _ miner_uids i 0%Z) by lia. simpl.
      apply IH; lia.
Qed.

(** X14.  The three lists are indexed by the position in [miner_time]: when
    there are more latencies than answers, or more latencies than uids,
    [_score_miner] raises [IndexError] (provided the vectorizer found a
    bigram, which is checked first). *)
Theorem score_miner_IndexError (miner_res : list string) (miner_uids : list Z)
    (miner_time : list Q) :
  (exists doc, In doc miner_res /\ analyze doc <> []) ->
  (List.length miner_res < List.length miner_time)%nat
  \/ (List.length miner_uids < List.length miner_time)%nat ->
  _score_miner jaro_winkler_similarity dice ratio
    miner_res miner_uids miner_time = Raise IndexError.
Proof.
  intros Hdoc Hlong.
  destruct (@fit_transform_ok miner_res Hdoc) as [X HX].
  unfold _score_miner, calculate_dice_similarity_scores. rewrite HX.
  unfold rbind at 1.
  apply (@score_loop_IndexError _ _ _ miner_uids (List.length miner_res));
    try apply pairwise_scores_length; simpl; lia.
Qed.

End ScoreErrors.

Lemma score_miner_IndexError_witness :
  let miner_res := ["hello"%string] in
  let miner_uids := [5%Z; 6%Z] in
  let miner_time : list Q := [2; 3] in
  (exists doc, In doc miner_res /\ analyze doc <> []) /\
  ((List.length miner_res < List.length miner_time)%nat
   \/ (List.length miner_uids < List.length miner_time)%nat) /\
  _score_miner (const_measure 1) (const_measure 0) (const_measure 1)
    miner_res miner_uids miner_time = Raise IndexError.
Proof.
  assert (Hdoc : exists doc, In doc ["hello"]%string /\ analyze doc <> []).
  { exists "hello"%string. split; [now left|discriminate]. }
  assert (Hlong : (List.length ["hello"%string] < List.length [2%Q; 3%Q])%nat
                  \/ (List.length [5%Z; 6%Z] < List.length [2%Q; 3%Q])%nat).
  { left. simpl. lia. }
  split; [exact Hdoc|]. split; [exact Hlong|].
  exact (@score_miner_IndexError (const_measure 1) (const_measure 0)
           (const_measure 1) _ _ _ Hdoc Hlong).
Defined.

(** ** More on polling *)

Section Polling.

Variable self_netuid : Z.
Variable w : world.

Lemma unpack_raises_Exception (payload : pyobj) (elapsed : Q) (e : exn) :
  (miner_answer <- subscript payload "answer" ;;
   set_item miner_answer "response_time" (PNum elapsed))%result = Raise e ->
  is_Exception e = true.
Proof.
  unfold subscript, set_item.
  destruct payload as [| | |fields]; simpl; try (intros H; inversion H; reflexivity).
  destruct (field_get fields "answer") as [[| | |ans]|]; simpl;
    intros H; inversion H; reflexivity.
Qed.

(** X15.  Whatever goes wrong with one peer inside the [try] - the call
    raising an [Exception], a payload without ["answer"], an answer that is
    not a dictionary - the peer's result is [None], the failure is logged
    after the call, and nothing is raised. *)
Theorem get_miner_prediction_contained (question : string)
    (module_ip module_port : pyval) (miner_key : string) (port : Z)
    (tr : trace) :
  py_int_of module_port = Ok port ->
  let outcome := module_call w module_ip port miner_key question in
  interrupts outcome = false ->
  prediction_of outcome = PNone ->
  exists e,
    _get_miner_prediction self_netuid w question
      ([module_ip; module_port], miner_key) tr
    = (Ok PNone,
       tr ++ [EvLog (LogPollStart (get_uids w miner_key self_netuid));
              EvCall module_ip port miner_key;
              EvLog (LogPollFailed (get_uids w miner_key self_netuid) e)]).
Proof.
  intros Hp outcome Hint Hnone.
  destruct outcome as [payload elapsed|e] eqn:Hc; subst outcome.
  - simpl in Hnone.
    destruct (miner_answer <- subscript payload "answer" ;;
              set_item miner_answer "response_time" (PNum elapsed))%result
      as [ans|e] eqn:Hu.
    + exfalso. subst ans. unfold subscript, set_item in Hu.
      destruct payload as [| | |fields]; simpl in Hu; try discriminate.
      destruct (field_get fields "answer") as [[| | |ans]|]; simpl in Hu;
        discriminate.
    + exists e. now apply (@get_miner_prediction_malformed self_netuid w question
                            module_ip module_port miner_key port payload elapsed).
  - exists e. apply get_miner_prediction_call_raises; auto.
    simpl in Hint. now apply negb_false_iff in Hint.
Qed.

(** X16.  A payload whose ["answer"] is a dictionary comes back stamped: the
    result is that dictionary with ["response_time"] set to the measured
    latency, every other field as the peer sent it, and the success is
    logged after the call. *)
Theorem get_miner_prediction_stamped (question : string)
    (module_ip module_port : pyval) (miner_key : string) (port : Z)
    (payload : pyobj) (fields : list (string * pyobj)) (elapsed : Q)
    (tr : trace) :
  py_int_of module_port = Ok port ->
  module_call w module_ip port miner_key question = Returns payload elapsed ->
  subscript payload "answer" = Ok (PDict fields) ->
  exists miner_answer,
    _get_miner_prediction self_netuid w question
      ([module_ip; module_port], miner_key) tr
    = (Ok miner_answer,
       tr ++ [EvLog (LogPollStart (get_uids w miner_key self_netuid));
              EvCall module_ip port miner_key;
              EvLog (LogPollOk (get_uids w miner_key self_netuid))]) /\
    truthy miner_answer = true /\
    subscript miner_answer "response_time" = Ok (PNum elapsed) /\
    forall k, k <> "response_time"%string ->
      subscript miner_answer k = subscript (PDict fields) k.
Proof.
  intros Hp Hc Ha.
  exists (PDict (field_set fields "response_time" (PNum elapsed))).
  assert (Hget : forall k,
            field_get (field_set fields "response_time" (PNum elapsed)) k
            = if String.eqb k "response_time" then Some (PNum elapsed)
              else field_get fields k).
  { intros k. clear Ha. induction fields as [|[k' v'] fs IH];
      cbn [field_set field_get].
    - reflexivity.
    - destruct (String.eqb_spec "response_time" k') as [<-|Hne];
        cbn [field_get].
      + now destruct (String.eqb k "response_time").
      + destruct (String.eqb_spec k k') as [->|Hkk].
        * destruct (String.eqb_spec k' "response_time"); [congruence|reflexivity].
        * apply IH. }
  split; [|split; [|split]].
  - unfold _get_miner_prediction, bind, lift, log, emit, try_except, raise, ret.
    rewrite Hp, Hc. simpl. rewrite Ha. simpl. now rewrite <- !app_assoc.
  - cbn [truthy]. destruct fields as [|[k v] fs]; cbn [field_set]; [reflexivity|].
    now destruct (String.eqb "response_time" k).
  - unfold subscript. now rewrite Hget.
  - intros k Hk. unfold subscript. rewrite Hget.
    destruct (String.eqb_spec k "response_time"); [contradiction|reflexivity].
Qed.

(** X17.  [except Exception] does not catch what is not an [Exception]: a
    [KeyboardInterrupt] during the call leaves [_get_miner_prediction], and
    no failure is logged for the peer. *)
Theorem get_miner_prediction_interrupted (question : string)
    (module_ip module_port : pyval) (miner_key : string) (port : Z) (e : exn)
    (tr : trace) :
  py_int_of module_port = Ok port ->
  module_call w module_ip port miner_key question = Raises e ->
  is_Exception e = false ->
  e = KeyboardInterrupt /\
  _get_miner_prediction self_netuid w question
    ([module_ip; module_port], miner_key) tr
  = (Raise e,
     tr ++ [EvLog (LogPollStart (get_uids w miner_key self_netuid));
            EvCall module_ip port miner_key]).
Proof.
  intros Hp Hc He. split; [destruct e; simpl in He; congruence|].
  unfold _get_miner_prediction, bind, lift, log, emit, try_except, raise, ret.
  rewrite Hp, Hc. simpl. rewrite He. now rewrite <- !app_assoc.
Qed.

End Polling.

Lemma get_miner_prediction_contained_witness :
  let w := two_miner_world "5Validator" (Raises TimeoutError)
             (Returns (answer_with "help") 3) in
  py_int_of (PyStr "9000") = Ok 9000%Z /\
  interrupts (module_call w (PyStr "10.0.0.5") 9000 "5MinerA" "task") = false /\
  prediction_of (module_call w (PyStr "10.0.0.5") 9000 "5MinerA" "task") = PNone /\
  exists e,
    _get_miner_prediction 18 w "task"
      ([PyStr "10.0.0.5"; PyStr "9000"], "5MinerA"%string) []
    = (Ok PNone,
       [EvLog (LogPollStart 1); EvCall (PyStr "10.0.0.5") 9000 "5MinerA";
        EvLog (LogPollFailed 1 e)]).
Proof.
  split; [reflexivity|]. split; [reflexivity|]. split; [reflexivity|].
  exact (@get_miner_prediction_contained 18
           (two_miner_world "5Validator" (Raises TimeoutError)
              (Returns (answer_with "help") 3))
           "task" (PyStr "10.0.0.5") (PyStr "9000") "5MinerA" 9000 []
           eq_refl eq_refl eq_refl).
Defined.

Lemma get_miner_prediction_stamped_witness :
  let w := two_miner_world "5Validator" (Returns (answer_with "hello") 2)
             (Raises TimeoutError) in
  py_int_of (PyStr "9000") = Ok 9000%Z /\
  module_call w (PyStr "10.0.0.5") 9000 "5MinerA" "task"
    = Returns (answer_with "hello") 2 /\
  subscript (answer_with "hello") "answer"
    = Ok (PDict [("response"%string, PStr "hello")]) /\
  exists miner_answer,
    fst (_get_miner_prediction 18 w "task"
           ([PyStr "10.0.0.5"; PyStr "9000"], "5MinerA"%string) [])
    = Ok miner_answer /\
    subscript miner_answer "response_time" = Ok (PNum 2) /\
    subscript miner_answer "response" = Ok (PStr "hello").
Proof.
  split; [reflexivity|]. split; [reflexivity|]. split; [reflexivity|].
  destruct (@get_miner_prediction_stamped 18
              (two_miner_world "5Validator" (Returns (answer_with "hello") 2)
                 (Raises TimeoutError))
              "task" (PyStr "10.0.0.5") (PyStr "9000") "5MinerA" 9000
              (answer_with "hello") [("response"%string, PStr "hello")] 2 []
              eq_refl eq_refl eq_refl)
    as (miner_answer & Hrun & _ & Hstamp & Hother).
  exists miner_answer. split; [now rewrite Hrun|]. split; [exact Hstamp|].
  rewrite Hother; [reflexivity|discriminate].
Defined.

Lemma get_miner_prediction_interrupted_witness :
  let w := two_miner_world "5Validator" (Raises KeyboardInterrupt)
             (Returns (answer_with "help") 3) in
  py_int_of (PyStr "9000") = Ok 9000%Z /\
  module_call w (PyStr "10.0.0.5") 9000 "5MinerA" "task"
    = Raises KeyboardInterrupt /\
  is_Exception KeyboardInterrupt = false /\
  _get_miner_prediction 18 w "task"
    ([PyStr "10.0.0.5"; PyStr "9000"], "5MinerA"%string) []
  = (Raise KeyboardInterrupt,
     [EvLog (LogPollStart 1); EvCall (PyStr "10.0.0.5") 9000 "5MinerA"]).
Proof.
  split; [reflexivity|]. split; [reflexivity|]. split; [reflexivity|].
  exact (proj2 (@get_miner_prediction_interrupted 18
                  (two_miner_world "5Validator" (Raises KeyboardInterrupt)
                     (Returns (answer_with "help") 3))
                  "task" (PyStr "10.0.0.5") (PyStr "9000") "5MinerA" 9000
                  KeyboardInterrupt [] eq_refl eq_refl eq_refl)).
Defined.

(** ** The polling stage as a whole *)

Section PollingStage.

Variable self_netuid : Z.
Variable w : world.

Lemma votes_app (a b : list event) : votes (a ++ b) = votes a ++ votes b.
Proof. unfold votes. apply filter_app. Qed.

(** One peer: its result is [prediction_of] its own outcome, and the events
    are its own start, call and closing log line. *)
Lemma get_miner_prediction_result (question : string)
    (miner_info : list pyval * string) (outcome : call_outcome) (tr : trace) :
  outcome_of w question miner_info = Some outcome ->
  interrupts outcome = false ->
  exists evs,
    _get_miner_prediction self_netuid w question miner_info tr
    = (Ok (prediction_of outcome), tr ++ evs) /\
    votes evs = [].
Proof.
  destruct miner_info as [connection miner_key]. unfold outcome_of.
  cbn [fst snd].
  destruct connection as [|module_ip [|module_port [|x l]]]; try discriminate.
  unfold _get_miner_prediction, bind, lift, log, emit, try_except, raise, ret.
  destruct (py_int_of module_port) as [port|e0]; [|discriminate].
  intros Ho Hint. injection Ho as Ho. subst outcome.
  destruct (module_call w module_ip port miner_key question)
    as [payload elapsed|e]; cbn [prediction_of rbind].
  - pose proof (@unpack_raises_Exception payload elapsed) as Hexc.
    cbn [rbind] in Hexc.
    destruct (subscript payload "answer") as [ans|e1]; cbn [rbind] in Hexc |- *.
    + destruct (set_item ans "response_time" (PNum elapsed)) as [ans'|e2].
      * eexists. rewrite <- !app_assoc. split; reflexivity.
      * rewrite (Hexc e2 eq_refl).
        eexists. rewrite <- !app_assoc. split; reflexivity.
    + rewrite (Hexc e1 eq_refl).
      eexists. rewrite <- !app_assoc. split; reflexivity.
  - cbn [interrupts] in Hint. apply negb_false_iff in Hint. rewrite Hint.
    eexists. rewrite <- !app_assoc. split; reflexivity.
Qed.

(** X18.  The polling stage gives one result per polled peer, in the order of
    the peers, and the result of a peer is decided by that peer's call alone:
    a peer that fails yields [None] in its own place and changes no other
    result.  (As long as no call is interrupted by something that is not an
    [Exception].) *)
Theorem polling_is_pointwise (question : string)
    (modules : list (list pyval * string)) (tr : trace) :
  Forall (fun miner_info =>
            exists outcome,
              outcome_of w question miner_info = Some outcome /\
              interrupts outcome = false) modules ->
  exists tr',
    mapMM (_get_miner_prediction self_netuid w question) modules tr
    = (Ok (map (fun miner_info =>
                  match outcome_of w question miner_info with
                  | Some outcome => prediction_of outcome
                  | None => PNone
                  end) modules), tr').
Proof.
  revert tr. induction modules as [|miner_info rest IH]; intros tr Hall.
  - eexists. reflexivity.
  - inversion Hall as [|? ? (outcome & Ho & Hint) Hrest]; subst.
    destruct (@get_miner_prediction_result question miner_info outcome tr Ho Hint)
      as (evs & Hrun & _).
    destruct (IH (tr ++ evs) Hrest) as (tr' & Hrec).
    exists tr'. cbn [mapMM map]. unfold bind at 1. rewrite Hrun.
    unfold bind at 1. rewrite Hrec. unfold ret. now rewrite Ho.
Qed.

End PollingStage.

Lemma polling_is_pointwise_witness :
  let w := two_miner_world "5Validator" (Raises TimeoutError)
             (Returns (answer_with "help") 3) in
  let modules :=
    [([PyStr "10.0.0.5"; PyStr "9000"], "5MinerA"%string);
     ([PyStr "10.0.0.6"; PyStr "9000"], "5MinerB"%string)] in
  Forall (fun miner_info =>
            exists outcome,
              outcome_of w "task" miner_info = Some outcome /\
              interrupts outcome = false) modules /\
  fst (mapMM (_get_miner_prediction 18 w "task") modules [])
  = Ok [PNone;
        PDict [("response"%string, PStr "help");
               ("response_time"%string, PNum 3)]].
Proof.
  assert (Hall : Forall (fun miner_info =>
                   exists outcome,
                     outcome_of (two_miner_world "5Validator" (Raises TimeoutError)
                                   (Returns (answer_with "help") 3))
                       "task" miner_info = Some outcome /\
                     interrupts outcome = false)
                   [([PyStr "10.0.0.5"; PyStr "9000"], "5MinerA"%string);
                    ([PyStr "10.0.0.6"; PyStr "9000"], "5MinerB"%string)]).
  { repeat constructor; eexists; (split; [reflexivity|reflexivity]). }
  split; [exact Hall|].
  destruct (@polling_is_pointwise 18 _ "task" _ [] Hall) as (tr' & Hrun).
  rewrite Hrun. reflexivity.
Defined.

(** ** Votes of a round *)

Section RoundVotes.

Variable jaro_winkler_similarity : string -> string -> Q.
Variable dice : list Z -> list Z -> Q.
Variable ratio : string -> string -> Q.
Variable self_netuid : Z.
Variable w : world.

Lemma quiet_ret {A : Type} (a : A) : quiet (ret a).
Proof.
  intros tr r tr' H. injection H as <- <-. exists []. now rewrite app_nil_r.
Qed.

Lemma quiet_raise {A : Type} (e : exn) : quiet (@raise A e).
Proof.
  intros tr r tr' H. injection H as <- <-. exists []. now rewrite app_nil_r.
Qed.

Lemma quiet_lift {A : Type} (x : result A) : quiet (lift x).
Proof.
  intros tr r tr' H. injection H as <- <-. exists []. now rewrite app_nil_r.
Qed.

Lemma quiet_emit (ev : event) : is_vote ev = false -> quiet (emit ev).
Proof.
  intros Hev tr r tr' H. injection H as <- <-. exists [ev].
  split; [reflexivity|]. unfold votes. simpl. now rewrite Hev.
Qed.

Lemma quiet_log (l : log_line) : quiet (log l).
Proof. now apply quiet_emit. Qed.

Lemma quiet_bind {A B : Type} (m : M A) (k : A -> M B) :
  quiet m -> (forall a, quiet (k a)) -> quiet (bind m k).
Proof.
  intros Hm Hk tr r tr' H. unfold bind in H.
  destruct (m tr) as [[a|e] tr1] eqn:E.
  - destruct (Hm _ _ _ E) as (evs1 & -> & V1).
    destruct (Hk a _ _ _ H) as (evs2 & -> & V2).
    exists (evs1 ++ evs2). split; [now rewrite app_assoc|].
    now rewrite votes_app, V1, V2.
  - injection H as <- <-. exact (Hm _ _ _ E).
Qed.

Lemma quiet_try_except {A : Type} (body : M A) (handler : exn -> M A) :
  quiet body -> (forall e, quiet (handler e)) -> quiet (try_except body handler).
Proof.
  intros Hb Hh tr r tr' H. unfold try_except in H.
  destruct (body tr) as [[a|e] tr1] eqn:E.
  - injection H as <- <-. exact (Hb _ _ _ E).
  - destruct (is_Exception e).
    + destruct (Hb _ _ _ E) as (evs1 & -> & V1).
      destruct (Hh e _ _ _ H) as (evs2 & -> & V2).
      exists (evs1 ++ evs2). split; [now rewrite app_assoc|].
      now rewrite votes_app, V1, V2.
    + injection H as <- <-. exact (Hb _ _ _ E).
Qed.

Lemma quiet_get_miner_prediction (question : string)
    (miner_info : list pyval * string) :
  quiet (_get_miner_prediction self_netuid w question miner_info).
Proof.
  destruct miner_info as [connection miner_key]. unfold _get_miner_prediction.
  destruct connection as [|module_ip [|module_port [|x l]]];
    try apply quiet_raise.
  apply quiet_bind; [apply quiet_lift|]. intros port.
  apply quiet_bind; [apply quiet_log|]. intros _.
  apply quiet_try_except.
  - apply quiet_bind; [now apply quiet_emit|]. intros _.
    destruct (module_call w module_ip port miner_key question)
      as [payload elapsed|e]; [|apply quiet_raise].
    apply quiet_bind; [apply quiet_lift|]. intros ans.
    apply quiet_bind; [apply quiet_lift|]. intros ans'.
    apply quiet_bind; [apply quiet_log|]. intros _. apply quiet_ret.
  - intros e. apply quiet_bind; [apply quiet_log|]. intros _. apply quiet_ret.
Qed.

Lemma quiet_mapMM {A B : Type} (f : A -> M B) (l : list A) :
  (forall a, quiet (f a)) -> quiet (mapMM f l).
Proof.
  intros Hf. induction l as [|a l IH]; simpl; [apply quiet_ret|].
  apply quiet_bind; [apply Hf|]. intros y.
  apply quiet_bind; [exact IH|]. intros ys. apply quiet_ret.
Qed.

Lemma quiet_collect (answers : list (Z * pyobj)) :
  forall miner_res miner_time miner_uids,
    quiet (collect answers miner_res miner_time miner_uids).
Proof.
  induction answers as [|[uid miner_response] rest IH];
    intros miner_res miner_time miner_uids; simpl; [apply quiet_ret|].
  destruct (negb (truthy miner_response)).
  - apply quiet_bind; [apply quiet_log|]. intros _. apply IH.
  - apply quiet_bind; [apply quiet_lift|]. intros response.
    apply quiet_bind; [apply quiet_lift|]. intros response_time. apply IH.
Qed.

Lemma votes_once_quiet {A : Type} (m : M A) : quiet m -> votes_once self_netuid m.
Proof.
  intros Hm tr r tr' H. destruct (Hm _ _ _ H) as (evs & -> & V).
  exists evs. split; [reflexivity|]. destruct r; [now left|exact V].
Qed.

Lemma votes_once_bind {A B : Type} (m : M A) (k : A -> M B) :
  quiet m -> (forall a, votes_once self_netuid (k a)) ->
  votes_once self_netuid (bind m k).
Proof.
  intros Hm Hk tr r tr' H. unfold bind in H.
  destruct (m tr) as [[a|e] tr1] eqn:E.
  - destruct (Hm _ _ _ E) as (evs1 & -> & V1).
    destruct (Hk a _ _ _ H) as (evs2 & -> & V2).
    exists (evs1 ++ evs2). split; [now rewrite app_assoc|].
    rewrite votes_app, V1. exact V2.
  - injection H as <- <-. destruct (Hm _ _ _ E) as (evs & -> & V).
    exists evs. split; [reflexivity|exact V].
Qed.

Lemma votes_once_set_weights (max_allowed_weights : Z) (score_dict : PyDict.t Q)
    (l : log_line) :
  votes_once self_netuid
    (bind (set_weights max_allowed_weights score_dict self_netuid)
       (fun _ => bind (log l) (fun _ => ret tt))).
Proof.
  intros tr r tr' H. unfold bind, set_weights, log, emit, ret in H.
  destruct (weighted_scores_of max_allowed_weights score_dict) as [wm|e].
  - injection H as <- <-.
    exists [EvVote (PyDict.keys wm) (PyDict.values wm) self_netuid; EvLog l].
    split; [now rewrite <- app_assoc|].
    right. now exists (PyDict.keys wm), (PyDict.values wm).
  - injection H as <- <-. exists []. now rewrite app_nil_r.
Qed.

End RoundVotes.

(** X19.  A round votes at most once, on the validator's own netuid, and a
    round that raises has not voted: whatever the peers answer, every
    exception of [validate_step] leaves it before the ledger is written. *)
Theorem validate_step_votes_once
    (jaro_winkler_similarity : string -> string -> Q)
    (dice : list Z -> list Z -> Q) (ratio : string -> string -> Q)
    (self_netuid : Z) (w : world) (syntia_netuid max_allowed_weights : Z)
    (tr : trace) :
  let round :=
    validate_step jaro_winkler_similarity dice ratio self_netuid w
      syntia_netuid max_allowed_weights tr in
  exists evs,
    snd round = tr ++ evs /\
    match fst round with
    | Raise _ => votes evs = []
    | Ok _ => votes evs = [] \/
              exists uids weights, votes evs = [EvVote uids weights self_netuid]
    end.
Proof.
  assert (H : votes_once self_netuid
                (validate_step jaro_winkler_similarity dice ratio self_netuid w
                   syntia_netuid max_allowed_weights)).
  { unfold validate_step.
    destruct (negb (existsb _ _)); [apply votes_once_quiet, quiet_raise|].
    apply votes_once_bind; [apply quiet_log|]. intros _.
    apply votes_once_bind;
      [apply quiet_mapMM; intros a; apply quiet_get_miner_prediction|].
    intros miner_answers.
    apply votes_once_bind; [apply quiet_collect|].
    intros [[miner_res miner_time] miner_uids].
    apply votes_once_bind; [apply quiet_lift|]. intros texts.
    apply votes_once_bind; [apply quiet_lift|]. intros times.
    apply votes_once_bind; [apply quiet_lift|]. intros score_dict.
    destruct score_dict as [|kv rest].
    - apply votes_once_quiet. apply quiet_bind; [apply quiet_log|].
      intros _. apply quiet_ret.
    - apply votes_once_set_weights. }
  intros round. subst round.
  destruct (validate_step jaro_winkler_similarity dice ratio self_netuid w
              syntia_netuid max_allowed_weights tr) as [r tr'] eqn:E.
  destruct (H _ _ _ E) as (evs & -> & V). exists evs. split; [reflexivity|exact V].
Qed.

(** ** Which answers are scored *)

Section Collect.

Lemma collect_inv (answers : list (Z * pyobj)) :
  forall miner_res miner_time miner_uids tr res times uids tr',
    collect answers miner_res miner_time miner_uids tr
    = (Ok (res, times, uids), tr') ->
    let answered := filter (fun a => truthy (snd a)) answers in
    exists rs ts,
      mapM (fun a => subscript (snd a) "response") answered = Ok rs /\
      mapM (fun a => subscript (snd a) "response_time") answered = Ok ts /\
      res = miner_res ++ rs /\ times = miner_time ++ ts /\
      uids = miner_uids ++ map fst answered /\
      tr' = tr ++ map (fun a => EvLog (LogSkipping (fst a)))
                    (filter (fun a => negb (truthy (snd a))) answers).
Proof.
  induction answers as [|[uid miner_response] rest IH];
    intros miner_res miner_time miner_uids tr res times uids tr' H; simpl in H.
  - injection H as <- <- <- <-. exists [], []. simpl.
    now rewrite !app_nil_r.
  - simpl. destruct (truthy miner_response) eqn:T; simpl in H |- *.
    + unfold bind, lift in H.
      destruct (subscript miner_response "response") as [response|e]; [|discriminate].
      destruct (subscript miner_response "response_time") as [rt|e]; [|discriminate].
      apply IH in H as (rs & ts & H1 & H2 & -> & -> & -> & ->).
      exists (response :: rs), (rt :: ts). simpl. rewrite H1, H2. simpl.
      now rewrite <- !app_assoc.
    + unfold bind, log, emit in H.
      apply IH in H as (rs & ts & H1 & H2 & -> & -> & -> & ->).
      exists rs, ts. simpl. now rewrite <- !app_assoc.
Qed.

End Collect.

(** X20.  The answers passed on to the scorer are those of the peers whose
    result is not empty, in polling order, each with its own uid, text and
    latency; a peer without a result is logged as skipped and appears
    nowhere downstream. *)
Theorem collect_keeps_answered (answers : list (Z * pyobj)) (tr tr' : trace)
    (miner_res miner_time : list pyobj) (miner_uids : list Z) :
  collect answers [] [] [] tr = (Ok (miner_res, miner_time, miner_uids), tr') ->
  let answered := filter (fun a => truthy (snd a)) answers in
  miner_uids = map fst answered /\
  mapM (fun a => subscript (snd a) "response") answered = Ok miner_res /\
  mapM (fun a => subscript (snd a) "response_time") answered = Ok miner_time /\
  tr' = tr ++ map (fun a => EvLog (LogSkipping (fst a)))
                (filter (fun a => negb (truthy (snd a))) answers).
Proof.
  intros H answered.
  apply collect_inv in H as (rs & ts & H1 & H2 & -> & -> & -> & ->).
  fold answered in H1, H2. simpl. now repeat split.
Qed.

Lemma collect_keeps_answered_witness :
  let answers :=
    [(1%Z, PNone);
     (2%Z, PDict [("response"%string, PStr "help");
                  ("response_time"%string, PNum 3)])] in
  collect answers [] [] [] []
    = (Ok ([PStr "help"], [PNum 3], [2%Z]), [EvLog (LogSkipping 1)]) /\
  [2%Z] = map fst (filter (fun a => truthy (snd a)) answers).
Proof.
  assert (H : collect
                [(1%Z, PNone);
                 (2%Z, PDict [("response"%string, PStr "help");
                              ("response_time"%string, PNum 3)])] [] [] [] []
              = (Ok ([PStr "help"], [PNum 3], [2%Z]), [EvLog (LogSkipping 1)]))
    by reflexivity.
  split; [exact H|].
  exact (proj1 (@collect_keeps_answered _ _ _ _ _ _ H)).
Defined.

